(** * Dice probability modeler: a shallow embedding of
      [dice_probability_modeler.py] and the properties of its functions.

    The Python functions are embedded as Rocq functions of the same names.
    Python integers are [Z]; a Python [float] is an IEEE 754 binary64 value,
    carried by the Standard Library's [spec_float] with [prec = 53] and
    [emax = 1024]; exceptions are the [Raise] results of an error monad;
    the [Counter] of [validate_distro] is a finite map [gmap Z Z]; the list
    objects that [find_dice] reads and appends to live in a store of
    objects (module [Store]). CPython's [math.comb] refuses a coefficient
    whose smaller index is above 2^63 - 1; [hypergeometric_pmf] with that
    refusal is in module [CPython]. *)

From Stdlib Require Import ZArith List Lia SpecFloat.
From stdpp Require Import base list gmap sorting strings.

Local Open Scope Z_scope.

(** ** Exceptions and results *)

Inductive exn : Type :=
  | ValueError (msg : string)
  | ZeroDivisionError
  | OverflowError
  | TypeError.

Inductive result (A : Type) : Type :=
  | Return (a : A)
  | Raise (e : exn).

Arguments Return {A} a.
Arguments Raise {A} e.

#[global] Instance result_ret : MRet result := @Return.
#[global] Instance result_bind : MBind result := fun A B f m =>
  match m with
  | Return a => f a
  | Raise e => Raise e
  end.

Definition returns {A} (m : result A) : Prop := exists a, m = Return a.

(** ** Python numbers *)

Module Py.

(** binary64 *)
Definition prec : Z := 53.
Definition emax : Z := 1024.

(** The exact value of an [int], as an unrounded binary number. *)
Definition int_as_float (z : Z) : spec_float :=
  match z with
  | Z0 => S754_zero false
  | Zpos p => S754_finite false p 0
  | Zneg p => S754_finite true p 0
  end.

(** [a / b] on two [int]s: the quotient of the exact integers, rounded
    once to the nearest binary64 (ties to even). Division by zero raises
    [ZeroDivisionError]; a quotient that rounds beyond the largest finite
    binary64, that is with [|a / b| >= 2^1024 - 2^970], raises
    [OverflowError]. *)
Definition true_div_overflows (a b : Z) : bool :=
  (2 ^ 1024 - 2 ^ 970) * Z.abs b <=? Z.abs a.

Definition truediv (a b : Z) : result spec_float :=
  if b =? 0 then Raise ZeroDivisionError
  else if true_div_overflows a b then Raise OverflowError
  else Return (SFdiv prec emax (int_as_float a) (int_as_float b)).

(** [a // b] and [a % b]: floor division and its remainder, whose sign
    follows the divisor, as [Z.div] and [Z.modulo] do. *)
Definition floordiv (a b : Z) : result Z :=
  if b =? 0 then Raise ZeroDivisionError else Return (a / b).

Definition mod_ (a b : Z) : result Z :=
  if b =? 0 then Raise ZeroDivisionError else Return (a mod b).

(** Comparison of an [int] with a [float] is exact in Python: the integer
    is compared with the real number the float denotes. [None] when the
    float is a NaN. *)
Definition int_compare_float (z : Z) (f : spec_float) : option comparison :=
  match f with
  | S754_nan => None
  | S754_infinity s => Some (if s then Gt else Lt)
  | S754_zero _ => Some (z ?= 0)
  | S754_finite s m e =>
      let v := if s then Zneg m else Zpos m in
      Some (if 0 <=? e then z ?= v * 2 ^ e else z * 2 ^ (- e) ?= v)
  end.

Definition int_eq_float (z : Z) (f : spec_float) : bool :=
  match int_compare_float z f with Some Eq => true | _ => false end.

Definition int_gt_float (z : Z) (f : spec_float) : bool :=
  match int_compare_float z f with Some Gt => true | _ => false end.

(** [range(lo, hi)] *)
Definition range (lo hi : Z) : list Z := seqZ lo (hi - lo).

(** [sum(roll)] on a tuple of [int]s *)
Definition sum (l : list Z) : Z := foldr Z.add 0 l.

(** The binomial coefficient, by Pascal's rule. *)
Fixpoint binomial (n k : nat) : Z :=
  match k, n with
  | O, _ => 1
  | S _, O => 0
  | S k', S n' => binomial n' k' + binomial n' k
  end.

(** [math.comb(n, k)]: the number of ways to choose [k] items from [n];
    zero when [k > n]; [ValueError] when either argument is negative.
    (The refusal of CPython for [min(k, n - k) > 2^63 - 1] is left to
    [CPython.comb] below.) *)
Definition comb (n k : Z) : result Z :=
  if n <? 0 then Raise (ValueError "n must be a non-negative integer")
  else if k <? 0 then Raise (ValueError "k must be a non-negative integer")
  else Return (binomial (Z.to_nat n) (Z.to_nat k)).

(** [math.gcd] is [Z.gcd]: the non-negative greatest common divisor. *)
Definition gcd (a b : Z) : Z := Z.gcd a b.

End Py.

(** ** [hypergeometric_pmf] *)

(** What a call of [hypergeometric_pmf] hands back: the bare float of
    [return 0.0], or the tuple [(p_value, numerator, denominator)]. *)
Inductive pmf_value : Type :=
  | PmfFloat (p : spec_float)
  | PmfTuple (p_value : spec_float) (numerator denominator : Z).

Definition hypergeometric_pmf
    (total_population total_successes draws target_successes : Z)
    : result pmf_value :=
  if (total_successes >? total_population)
     || (draws >? total_population)
     || (total_population <? 1)
  then Raise (ValueError "Invalid Parameters")
  else if (target_successes >? draws)
          || (target_successes >? total_successes)
          || (target_successes <? 0)
  then Return (PmfFloat (S754_zero false))
  else
    term_1 ← Py.comb total_successes target_successes;
    term_2 ← Py.comb (total_population - total_successes)
                     (draws - target_successes);
    term_3 ← Py.comb total_population draws;
    p_value ← Py.truediv (term_1 * term_2) term_3;
    let fraction_gcd := Py.gcd (term_1 * term_2) term_3 in
    numerator ← Py.floordiv (term_1 * term_2) fraction_gcd;
    denominator ← Py.floordiv term_3 fraction_gcd;
    Return (PmfTuple p_value numerator denominator).

(** ** The size limit of [math.comb]

    CPython computes [comb(n, k)] with a loop of [min(k, n - k)] steps,
    counted in a C [long long]: when [k <= n] and [min(k, n - k)] is
    above [LLONG_MAX] it raises [OverflowError]. [CPython.comb] is
    [math.comb] with this refusal, and [CPython.hypergeometric_pmf] is the
    function over it. *)

Module CPython.

Definition LLONG_MAX : Z := 2 ^ 63 - 1.

Definition comb (n k : Z) : result Z :=
  if n <? 0 then Raise (ValueError "n must be a non-negative integer")
  else if k <? 0 then Raise (ValueError "k must be a non-negative integer")
  else if (k <=? n) && (LLONG_MAX <? Z.min k (n - k)) then Raise OverflowError
  else Return (Py.binomial (Z.to_nat n) (Z.to_nat k)).

Definition hypergeometric_pmf
    (total_population total_successes draws target_successes : Z)
    : result pmf_value :=
  if (total_successes >? total_population)
     || (draws >? total_population)
     || (total_population <? 1)
  then Raise (ValueError "Invalid Parameters")
  else if (target_successes >? draws)
          || (target_successes >? total_successes)
          || (target_successes <? 0)
  then Return (PmfFloat (S754_zero false))
  else
    term_1 ← comb total_successes target_successes;
    term_2 ← comb (total_population - total_successes)
                  (draws - target_successes);
    term_3 ← comb total_population draws;
    p_value ← Py.truediv (term_1 * term_2) term_3;
    let fraction_gcd := Py.gcd (term_1 * term_2) term_3 in
    numerator ← Py.floordiv (term_1 * term_2) fraction_gcd;
    denominator ← Py.floordiv term_3 fraction_gcd;
    Return (PmfTuple p_value numerator denominator).

End CPython.

(** ** [hypergeometric_cdf] *)

(** A Python number: [sum] starts from the [int] 0 and adds floats to it. *)
Inductive pynum : Type :=
  | PInt (z : Z)
  | PFloat (f : spec_float).

(** [x[0]]: the first component of a tuple; a float is not subscriptable. *)
Definition subscript0 (v : pmf_value) : result spec_float :=
  match v with
  | PmfTuple p _ _ => Return p
  | PmfFloat _ => Raise TypeError
  end.

(** [acc + x] for a float [x]; an [int] accumulator is converted first.
    (The only [int] accumulator [sum] ever holds here is its start, 0.) *)
Definition num_add_float (acc : pynum) (x : spec_float) : pynum :=
  match acc with
  | PInt z =>
      PFloat (SFadd Py.prec Py.emax
                (binary_normalize Py.prec Py.emax z 0 false) x)
  | PFloat f => PFloat (SFadd Py.prec Py.emax f x)
  end.

(** [sum(outcomes)]: the items are added one by one, left to right, to the
    start value 0. *)
Definition sum_floats (outcomes : list spec_float) : pynum :=
  fold_left num_add_float outcomes (PInt 0).

Definition k_values_of (inequality : string)
    (target_successes max_successes : Z) : result (list Z) :=
  if String.eqb inequality "eq" then Return [target_successes]
  else if String.eqb inequality "lte" then
    Return (Py.range 0 (target_successes + 1))
  else if String.eqb inequality "lt" then
    Return (Py.range 0 target_successes)
  else if String.eqb inequality "gte" then
    Return (Py.range target_successes (max_successes + 1))
  else if String.eqb inequality "gt" then
    Return (Py.range (target_successes + 1) (max_successes + 1))
  else if String.eqb inequality "neq" then
    Return (Py.range 0 target_successes
            ++ Py.range (target_successes + 1) (max_successes + 1))
  else Raise (ValueError "Invalid Inequality Option").

(** The list comprehension: each element is computed in turn, and the
    first exception ends it. *)
Fixpoint outcomes_of (total_population total_successes draws : Z)
    (k_values : list Z) : result (list spec_float) :=
  match k_values with
  | [] => Return []
  | k :: ks =>
      v ← hypergeometric_pmf total_population total_successes draws k;
      p ← subscript0 v;
      ps ← outcomes_of total_population total_successes draws ks;
      Return (p :: ps)
  end.

Definition hypergeometric_cdf
    (total_population total_successes draws target_successes : Z)
    (inequality : string) : result pynum :=
  let max_successes := Z.min draws total_successes in
  k_values ← k_values_of inequality target_successes max_successes;
  outcomes ← outcomes_of total_population total_successes draws k_values;
  Return (sum_floats outcomes).

(** ** [validate_distro] *)

(** What [validate_distro] hands back: an [int], or [None] when control
    falls off the end of the function. *)
Inductive threshold_value : Type :=
  | PyInt (z : Z)
  | PyNone.

(** Truth value in [if threshold:] *)
Definition truthy (v : threshold_value) : bool :=
  match v with
  | PyInt z => negb (z =? 0)
  | PyNone => false
  end.

(** [itertools.product] over the pools: every tuple with one element of each pool,
    the rightmost pool advancing fastest. *)
Fixpoint product (pools : list (list Z)) : list (list Z) :=
  match pools with
  | [] => [[]]
  | pool :: pools' => x ← pool; roll ← product pools'; [x :: roll]
  end.

(** [Counter(iterable)]: each element in turn raises its own count by one,
    a missing key counting as zero. *)
Definition count_one (c : gmap Z Z) (x : Z) : gmap Z Z :=
  <[x := default 0 (c !! x) + 1]> c.

Definition Counter (l : list Z) : gmap Z Z := fold_left count_one l ∅.

(** Order of the [(sum, count)] tuples: lexicographic, as Python compares
    tuples; [item_ge a b] is [a >= b]. *)
Definition item_ge (a b : Z * Z) : Prop :=
  a.1 > b.1 \/ (a.1 = b.1 /\ a.2 >= b.2).

#[global] Instance item_ge_dec : RelDecision item_ge.
Proof. intros a b; unfold item_ge; apply _. Defined.

(** [sorted(distro.items(), reverse=True)] *)
Definition sorted_reverse (c : gmap Z Z) : list (Z * Z) :=
  merge_sort item_ge (map_to_list c).

(** [num_cases]: the running product of the loop over [dice]. *)
Definition num_cases_of (dice : list Z) : Z := fold_left Z.mul dice 1.

Definition rolls_of (dice : list Z) : list (list Z) :=
  product ((fun d => Py.range 1 (d + 1)) <$> dice).

Definition distro_of (dice : list Z) : list (Z * Z) :=
  sorted_reverse (Counter (Py.sum <$> rolls_of dice)).

(** The loop over the sorted distribution, [cum_cases] being its state. *)
Fixpoint scan (target_cases : spec_float) (cum_cases : Z)
    (distro : list (Z * Z)) : threshold_value :=
  match distro with
  | [] => PyNone
  | (threshold, freq) :: distro' =>
      let cum_cases := cum_cases + freq in
      if Py.int_eq_float cum_cases target_cases then PyInt threshold
      else if Py.int_gt_float cum_cases target_cases then PyInt 0
      else scan target_cases cum_cases distro'
  end.

(** [target_cases = numerator * num_cases / denominator] *)
Definition target_cases_of (numerator denominator num_cases : Z)
    : result spec_float :=
  Py.truediv (numerator * num_cases) denominator.

Definition validate_distro (numerator denominator : Z) (dice : list Z)
    : result threshold_value :=
  let num_cases := num_cases_of dice in
  r ← Py.mod_ num_cases denominator;
  if negb (r =? 0) then Return (PyInt 0)
  else
    target_cases ← target_cases_of numerator denominator num_cases;
    Return (scan target_cases 0 (distro_of dice)).

(** ** [find_dice] *)

(** The module-level [RPG_DICE_SET] *)
Definition RPG_DICE_SET : list Z := [4; 6; 8; 10; 12; 20].

Fixpoint tails (pool : list Z) : list (list Z) :=
  match pool with
  | [] => []
  | _ :: pool' => pool :: tails pool'
  end.

(** [itertools.combinations_with_replacement(pool, r)]: the selections of
    [r] positions of the pool, positions non-decreasing, in lexicographic
    order of the positions. A selection starts at some position and goes on
    with a selection from that position onwards. *)
Fixpoint combinations_with_replacement (pool : list Z) (r : nat)
    : list (list Z) :=
  match r with
  | O => [[]]
  | S r' =>
      suffix ← tails pool;
      match suffix with
      | [] => []
      | x :: _ => cons x <$> combinations_with_replacement suffix r'
      end
  end.

Abbreviation solution := (list Z * threshold_value)%type.

(** The [for dice in ...] loop, [solutions] being its state. *)
Fixpoint try_candidates (numerator denominator : Z)
    (candidates : list (list Z)) (solutions : list solution)
    : result (list solution) :=
  match candidates with
  | [] => Return solutions
  | dice :: candidates' =>
      threshold ← validate_distro numerator denominator dice;
      try_candidates numerator denominator candidates'
        (if truthy threshold then solutions ++ [(dice, threshold)]
         else solutions)
  end.

(** The [while N <= limit and not solutions] loop: [remaining] counts the
    sizes from [N] to [limit]. *)
Fixpoint search (numerator denominator : Z) (dice_set : list Z)
    (remaining N : nat) (solutions : list solution)
    : result (list solution) :=
  match remaining, solutions with
  | O, _ => Return solutions
  | S _, _ :: _ => Return solutions
  | S remaining', [] =>
      solutions' ← try_candidates numerator denominator
                     (combinations_with_replacement dice_set N) solutions;
      search numerator denominator dice_set remaining' (S N) solutions'
  end.

Definition find_dice (p_value : spec_float) (numerator denominator : Z)
    (dice_set : list Z) (limit : Z) : result (list solution) :=
  search numerator denominator dice_set (Z.to_nat limit) 1 [].

(** ** The store of list objects

    [find_dice] is handed a reference to a list object ([dice_set], by
    default the module-level [RPG_DICE_SET]) and builds its result in a
    list object of its own ([solutions = []], then [solutions.append]).
    Here the functions run on a store of such objects. *)

Module Store.

Definition loc := positive.

Inductive obj : Type :=
  | IntList (items : list Z)
  | SolutionList (items : list solution).

Abbreviation store := (gmap loc obj).

(** A computation reads and updates the store, and returns or raises. *)
Definition M (A : Type) : Type := store -> result A * store.

Definition ret {A} (a : A) : M A := fun s => (Return a, s).

Definition bind {A B} (m : M A) (f : A -> M B) : M B := fun s =>
  match m s with
  | (Return a, s') => f a s'
  | (Raise e, s') => (Raise e, s')
  end.

Definition lift {A} (r : result A) : M A := fun s => (r, s).

Notation "x <- m ;; k" := (bind m (fun x => k))
  (at level 100, m at next level, right associativity).
Notation "m ;;; k" := (bind m (fun _ => k))
  (at level 100, right associativity).

(** [solutions = []]: a new list object, at a location not in use. *)
Definition new_solution_list : M loc := fun s =>
  let l := fresh (dom s) in (Return l, <[l := SolutionList []]> s).

(** [not solutions] and the final [return solutions] read the object. *)
Definition read_solutions (l : loc) : M (list solution) := fun s =>
  match s !! l with
  | Some (SolutionList items) => (Return items, s)
  | _ => (Raise TypeError, s)
  end.

(** [combinations_with_replacement] copies the pool out of the object it
    is given: it reads, and writes nothing. *)
Definition read_pool (l : loc) : M (list Z) := fun s =>
  match s !! l with
  | Some (IntList items) => (Return items, s)
  | _ => (Raise TypeError, s)
  end.

(** [solutions.append(x)] updates the object in place. *)
Definition append (l : loc) (x : solution) : M unit := fun s =>
  match s !! l with
  | Some (SolutionList items) =>
      (Return tt, <[l := SolutionList (items ++ [x])]> s)
  | _ => (Raise TypeError, s)
  end.

Fixpoint try_candidates (numerator denominator : Z)
    (candidates : list (list Z)) (solutions : loc) : M unit :=
  match candidates with
  | [] => ret tt
  | dice :: candidates' =>
      threshold <- lift (validate_distro numerator denominator dice) ;;
      (if truthy threshold then append solutions (dice, threshold)
       else ret tt) ;;;
      try_candidates numerator denominator candidates' solutions
  end.

Fixpoint search (numerator denominator : Z) (dice_set : loc)
    (remaining N : nat) (solutions : loc) : M unit :=
  match remaining with
  | O => ret tt
  | S remaining' =>
      found <- read_solutions solutions ;;
      match found with
      | _ :: _ => ret tt
      | [] =>
          pool <- read_pool dice_set ;;
          try_candidates numerator denominator
            (combinations_with_replacement pool N) solutions ;;;
          search numerator denominator dice_set remaining' (S N) solutions
      end
  end.

(** [find_dice], returning the reference to its [solutions] object. *)
Definition find_dice (p_value : spec_float) (numerator denominator : Z)
    (dice_set : loc) (limit : Z) : M loc :=
  solutions <- new_solution_list ;;
  search numerator denominator dice_set (Z.to_nat limit) 1 solutions ;;;
  ret solutions.

(** The module's own object: [RPG_DICE_SET], bound once when the module
    is loaded and shared by every call that leaves [dice_set] out. *)
Definition RPG_DICE_SET_ref : loc := 1%positive.

Definition module_store : store :=
  {[ RPG_DICE_SET_ref := IntList RPG_DICE_SET ]}.

Definition find_dice_default (p_value : spec_float)
    (numerator denominator : Z) (limit : Z) : M loc :=
  find_dice p_value numerator denominator RPG_DICE_SET_ref limit.

(** What the caller sees of a call: the exception, or the items of the
    list object it was handed. *)
Definition outcome (r : result loc * store) : result (list solution) :=
  match r with
  | (Return l, s) =>
      match s !! l with
      | Some (SolutionList items) => Return items
      | _ => Raise TypeError
      end
  | (Raise e, _) => Raise e
  end.

End Store.

(** ** Vocabulary of the properties *)

(** [comb] on arguments that are not negative. *)
Definition choose (n k : Z) : Z := Py.binomial (Z.to_nat n) (Z.to_nat k).

Definition invalid_parameters (N K n : Z) : Prop := K > N \/ n > N \/ N < 1.

Definition impossible_target (K n k : Z) : Prop := k > n \/ k > K \/ k < 0.

(** [math.comb(n, k)] is refused for its size. *)
Definition comb_refused (n k : Z) : Prop :=
  k <= n /\ CPython.LLONG_MAX < Z.min k (n - k).

(** One of the three coefficients that [hypergeometric_pmf] asks for is
    refused. *)
Definition coefficient_refused (N K n k : Z) : Prop :=
  comb_refused K k \/ comb_refused (N - K) (n - k) \/ comb_refused N n.

(** The numerator of the fraction that [hypergeometric_pmf] returns,
    brought to the denominator [C(N, n)]. *)
Definition scaled_numerator (N K n k : Z) : Z :=
  match hypergeometric_pmf N K n k with
  | Return (PmfTuple _ numerator denominator) =>
      numerator * (choose N n / denominator)
  | _ => 0
  end.

(** The relation tokens that [hypergeometric_cdf] knows. *)
Definition recognized (inequality : string) : Prop :=
  inequality ∈ ["eq"; "lte"; "lt"; "gte"; "gt"; "neq"]%string.

(** The number of elements of [l] that satisfy [P]. *)
Definition count_where {A} (P : A -> bool) (l : list A) : Z :=
  Z.of_nat (length (List.filter P l)).

(** The number of outcome tuples of [dice] whose sum is at least [t]. *)
Definition outcomes_at_least (t : Z) (dice : list Z) : Z :=
  count_where (fun roll => t <=? Py.sum roll) (rolls_of dice).

(** The number of outcome tuples of [dice] whose sum is [k]. *)
Definition outcomes_with_sum (k : Z) (dice : list Z) : Z :=
  count_where (fun roll => k =? Py.sum roll) (rolls_of dice).

(** The counts of the items of a distribution whose key satisfies [P],
    added up. *)
Definition weight (P : Z -> bool) (items : list (Z * Z)) : Z :=
  foldr (fun item acc => if P item.1 then item.2 + acc else acc) 0 items.

Definition total_count (items : list (Z * Z)) : Z :=
  weight (fun _ => true) items.

(** The exact target count, [numerator * num_cases / denominator] in
    integers. *)
Definition target_count (numerator denominator num_cases : Z) : Z :=
  numerator * num_cases / denominator.

(** The integer [z] is below the float [f]: neither equal to it nor
    greater, as the scan tests it. *)
Definition below_float (z : Z) (f : spec_float) : Prop :=
  Py.int_eq_float z f = false /\ Py.int_gt_float z f = false.

(** The product of the face counts. *)
Definition faces_product (dice : list Z) : Z := foldr Z.mul 1 dice.

(** A combination yields a non-zero threshold. *)
Definition is_solution (numerator denominator : Z) (dice : list Z)
    (t : threshold_value) : Prop :=
  validate_distro numerator denominator dice = Return t /\ truthy t = true.

(** [dice] takes [N] faces of [dice_set], at positions of [dice_set] that
    do not decrease from one die to the next. *)
Definition selection (dice_set : list Z) (N : nat) (dice : list Z) : Prop :=
  exists positions : list nat,
    length positions = N
    /\ StronglySorted le positions
    /\ Forall2 (fun i d => dice_set !! i = Some d) positions dice.

(** [validate_distro] returns on [dice], and what it returns is no non-zero
    threshold. *)
Definition no_threshold (numerator denominator : Z) (dice : list Z) : Prop :=
  exists t, validate_distro numerator denominator dice = Return t
            /\ truthy t = false.

(** No combination of size [N] yields a non-zero threshold. *)
Definition no_solution_of_size (numerator denominator : Z)
    (dice_set : list Z) (N : nat) : Prop :=
  forall dice,
    dice ∈ combinations_with_replacement dice_set N ->
    exists t, validate_distro numerator denominator dice = Return t
              /\ truthy t = false.

(** The candidates that yield a non-zero threshold, each with its
    threshold, in the order of the candidates. *)
Definition solutions_among (numerator denominator : Z)
    (candidates : list (list Z)) : list solution :=
  omap (fun dice =>
          match validate_distro numerator denominator dice with
          | Return t => if truthy t then Some (dice, t) else None
          | Raise _ => None
          end) candidates.

(** How a run on the store relates to the function on values: the same
    exception, or the same list in the [solutions] object. *)
Definition agrees (r : result unit * gmap Store.loc Store.obj)
    (solutions : Store.loc) (v : result (list solution)) : Prop :=
  match v with
  | Return items =>
      r.1 = Return tt /\ r.2 !! solutions = Some (Store.SolutionList items)
  | Raise e =>
      r.1 = Raise e
      /\ exists items, r.2 !! solutions = Some (Store.SolutionList items)
  end.

(** Every object but [solutions] is in [s'] as it was in [s]. *)
Definition frames (s s' : gmap Store.loc Store.obj) (solutions : Store.loc)
    : Prop :=
  forall l, l <> solutions -> s' !! l = s !! l.

(** * Properties *)

(** ** Ranges *)

Lemma elem_of_range lo hi x : x ∈ Py.range lo hi <-> lo <= x < hi.
Proof. unfold Py.range; rewrite elem_of_seqZ; lia. Qed.

Lemma length_range lo hi : length (Py.range lo hi) = Z.to_nat (hi - lo).
Proof. apply length_seqZ. Qed.

(** ** The binomial coefficient *)

Section Binomial.

Lemma binomial_nonneg n k : 0 <= Py.binomial n k.
Proof.
  revert k; induction n as [|n IH]; intros [|k]; simpl; try lia.
  specialize (IH k) as H1; specialize (IH (S k)) as H2; lia.
Qed.

Lemma binomial_zero n k : (n < k)%nat -> Py.binomial n k = 0.
Proof.
  revert k; induction n as [|n IH]; intros [|k] Hk; simpl; try lia.
  rewrite !IH by lia; reflexivity.
Qed.

Lemma binomial_pos n k : (k <= n)%nat -> 0 < Py.binomial n k.
Proof.
  revert k; induction n as [|n IH]; intros [|k] Hk; simpl; try lia.
  specialize (IH k ltac:(lia)); pose proof (binomial_nonneg n (S k)); lia.
Qed.

Lemma binomial_diag n : Py.binomial n n = 1.
Proof.
  induction n as [|n IH]; simpl; [reflexivity|].
  rewrite IH, binomial_zero by lia; lia.
Qed.

(** [binomial n k] is [n! / (k! (n - k)!)]. *)
Lemma binomial_fact n k :
  (k <= n)%nat ->
  Py.binomial n k * (Z.of_nat (fact k) * Z.of_nat (fact (n - k)))
  = Z.of_nat (fact n).
Proof.
  revert k; induction n as [|n IH]; intros k Hk.
  - assert (k = 0%nat) as -> by lia; reflexivity.
  - destruct k as [|k].
    { change (Py.binomial (S n) 0) with 1; change (fact 0) with 1%nat.
      replace (S n - 0)%nat with (S n) by lia; lia. }
    destruct (decide (k = n)) as [->|Hne].
    + rewrite binomial_diag, Nat.sub_diag; simpl fact at 2; lia.
    + change (Py.binomial (S n) (S k))
        with (Py.binomial n k + Py.binomial n (S k)).
      specialize (IH k ltac:(lia)) as H1.
      specialize (IH (S k) ltac:(lia)) as H2.
      replace (S n - S k)%nat with (S (n - S k)) by lia.
      replace (n - k)%nat with (S (n - S k)) in H1 by lia.
      change (fact (S n)) with (S n * fact n)%nat.
      change (fact (S k)) with (S k * fact k)%nat in *.
      change (fact (S (n - S k)))
        with (S (n - S k) * fact (n - S k))%nat in *.
      rewrite !Nat2Z.inj_mul in *.
      replace (Z.of_nat (S n))
        with (Z.of_nat (S k) + Z.of_nat (S (n - S k))) by lia.
      transitivity (Z.of_nat (S k) * Z.of_nat (fact n)
                    + Z.of_nat (S (n - S k)) * Z.of_nat (fact n)); [|ring].
      rewrite <- H1 at 1; rewrite <- H2; ring.
Qed.

Lemma binomial_succ_le n k : Py.binomial n k <= Py.binomial (S n) k.
Proof.
  destruct k as [|k]; [destruct n; simpl; lia|].
  change (Py.binomial (S n) (S k))
    with (Py.binomial n k + Py.binomial n (S k)).
  pose proof (binomial_nonneg n k); lia.
Qed.

Lemma binomial_add_le n m k : Py.binomial n k <= Py.binomial (m + n) k.
Proof.
  induction m as [|m IH]; simpl plus; [lia|].
  pose proof (binomial_succ_le (m + n) k); lia.
Qed.

(** One term of Vandermonde's sum is at most the whole. *)
Lemma binomial_mul_le a b i j :
  Py.binomial a i * Py.binomial b j <= Py.binomial (a + b) (i + j).
Proof.
  revert i; induction a as [|a IH]; intros [|i].
  - simpl; lia.
  - change (Py.binomial 0 (S i)) with 0.
    pose proof (binomial_nonneg (0 + b) (S i + j)); lia.
  - change (Py.binomial (S a) 0) with 1.
    pose proof (binomial_add_le b (S a) j); simpl plus in *; lia.
  - change (Py.binomial (S a + b) (S i + j))
      with (Py.binomial (a + b) (i + j) + Py.binomial (a + b) (S i + j)).
    change (Py.binomial (S a) (S i))
      with (Py.binomial a i + Py.binomial a (S i)).
    specialize (IH i) as H1; specialize (IH (S i)) as H2; lia.
Qed.

End Binomial.

(** ** [hypergeometric_pmf] *)

Lemma comb_nonneg n k : 0 <= n -> 0 <= k -> Py.comb n k = Return (choose n k).
Proof.
  intros Hn Hk; unfold Py.comb.
  destruct (Z.ltb_spec n 0); [lia|]; destruct (Z.ltb_spec k 0); [lia|done].
Qed.


Lemma pmf_impossible N K n k :
  ~ invalid_parameters N K n -> impossible_target K n k ->
  hypergeometric_pmf N K n k = Return (PmfFloat (S754_zero false)).
Proof.
  unfold invalid_parameters, impossible_target, hypergeometric_pmf.
  intros Hv Hk.
  destruct (Z.gtb_spec K N), (Z.gtb_spec n N), (Z.ltb_spec N 1);
    simpl; try lia.
  destruct (Z.gtb_spec k n), (Z.gtb_spec k K), (Z.ltb_spec k 0);
    simpl; try reflexivity; lia.
Qed.

Lemma pmf_possible N K n k :
  ~ invalid_parameters N K n -> ~ impossible_target K n k ->
  let a := choose K k * choose (N - K) (n - k) in
  let b := choose N n in
  0 <= a <= b /\ 0 < b /\
  hypergeometric_pmf N K n k
  = Return (PmfTuple (SFdiv Py.prec Py.emax (Py.int_as_float a)
                        (Py.int_as_float b))
              (a / Z.gcd a b) (b / Z.gcd a b)).
Proof.
  intros Hv Hk a b; unfold invalid_parameters, impossible_target in Hv, Hk.
  assert (Hb : 0 < b) by (apply binomial_pos; lia).
  assert (Ha : 0 <= a <= b).
  { split.
    - apply Z.mul_nonneg_nonneg; apply binomial_nonneg.
    - subst a b; unfold choose.
      pose proof (binomial_mul_le (Z.to_nat K) (Z.to_nat (N - K))
                    (Z.to_nat k) (Z.to_nat (n - k))) as H.
      replace (Z.to_nat K + Z.to_nat (N - K))%nat with (Z.to_nat N) in H by lia.
      replace (Z.to_nat k + Z.to_nat (n - k))%nat with (Z.to_nat n) in H by lia.
      exact H. }
  split; [exact Ha|]; split; [exact Hb|].
  unfold hypergeometric_pmf.
  destruct (Z.gtb_spec K N), (Z.gtb_spec n N), (Z.ltb_spec N 1);
    simpl; try lia.
  destruct (Z.gtb_spec k n), (Z.gtb_spec k K), (Z.ltb_spec k 0);
    simpl; try lia.
  rewrite !comb_nonneg by lia; simpl.
  fold a b.
  assert (Hg : 0 < Z.gcd a b).
  { pose proof (Z.gcd_nonneg a b).
    destruct (decide (Z.gcd a b = 0)) as [E|]; [|lia].
    apply Z.gcd_eq_0_r in E; lia. }
  unfold Py.truediv, Py.true_div_overflows, Py.floordiv, Py.gcd.
  destruct (Z.eqb_spec b 0); [lia|].
  destruct (Z.leb_spec ((2 ^ 1024 - 2 ^ 970) * Z.abs b) (Z.abs a)) as [Ho|_].
  { assert (1 <= 2 ^ 1024 - 2 ^ 970) by (vm_compute; discriminate). nia. }
  simpl.
  destruct (Z.eqb_spec (Z.gcd a b) 0); [lia|reflexivity].
Qed.

Lemma invalid_parameters_dec N K n :
  {invalid_parameters N K n} + {~ invalid_parameters N K n}.
Proof.
  unfold invalid_parameters.
  destruct (Z_gt_dec K N), (Z_gt_dec n N), (Z_lt_dec N 1);
    first [left; lia | right; lia].
Defined.

Lemma impossible_target_dec K n k :
  {impossible_target K n k} + {~ impossible_target K n k}.
Proof.
  unfold impossible_target.
  destruct (Z_gt_dec k n), (Z_gt_dec k K), (Z_lt_dec k 0);
    first [left; lia | right; lia].
Defined.

(** *** With the size limit of [math.comb] *)

Section SizeLimit.

Lemma comb_refused_dec n k : {comb_refused n k} + {~ comb_refused n k}.
Proof.
  unfold comb_refused.
  destruct (Z_le_dec k n), (Z_lt_dec CPython.LLONG_MAX (Z.min k (n - k)));
    first [left; lia | right; lia].
Defined.

Lemma cpython_comb_refused n k :
  0 <= n -> 0 <= k -> comb_refused n k ->
  CPython.comb n k = Raise OverflowError.
Proof.
  intros Hn Hk [H1 H2]; unfold CPython.comb.
  destruct (Z.ltb_spec n 0); [lia|]; destruct (Z.ltb_spec k 0); [lia|].
  destruct (Z.leb_spec k n); [|lia].
  destruct (Z.ltb_spec CPython.LLONG_MAX (Z.min k (n - k))); [done|lia].
Qed.

Lemma cpython_comb_within n k :
  ~ comb_refused n k -> CPython.comb n k = Py.comb n k.
Proof.
  intros H; unfold CPython.comb, Py.comb, comb_refused in *.
  destruct (n <? 0); [done|]; destruct (k <? 0); [done|].
  destruct (Z.leb_spec k n); [|done].
  destruct (Z.ltb_spec CPython.LLONG_MAX (Z.min k (n - k))); [lia|done].
Qed.

Lemma cpython_pmf_invalid N K n k :
  invalid_parameters N K n ->
  CPython.hypergeometric_pmf N K n k = Raise (ValueError "Invalid Parameters").
Proof.
  unfold invalid_parameters, CPython.hypergeometric_pmf; intros H.
  destruct (Z.gtb_spec K N), (Z.gtb_spec n N), (Z.ltb_spec N 1);
    simpl; try reflexivity; lia.
Qed.

Lemma cpython_pmf_impossible N K n k :
  ~ invalid_parameters N K n -> impossible_target K n k ->
  CPython.hypergeometric_pmf N K n k = Return (PmfFloat (S754_zero false)).
Proof.
  unfold invalid_parameters, impossible_target, CPython.hypergeometric_pmf.
  intros Hv Hk.
  destruct (Z.gtb_spec K N), (Z.gtb_spec n N), (Z.ltb_spec N 1);
    simpl; try lia.
  destruct (Z.gtb_spec k n), (Z.gtb_spec k K), (Z.ltb_spec k 0);
    simpl; try reflexivity; lia.
Qed.

(** Where no coefficient is refused, the size limit changes nothing. *)
Lemma cpython_pmf_within N K n k :
  ~ coefficient_refused N K n k ->
  CPython.hypergeometric_pmf N K n k = hypergeometric_pmf N K n k.
Proof.
  unfold coefficient_refused; intros H.
  unfold CPython.hypergeometric_pmf, hypergeometric_pmf.
  rewrite !cpython_comb_within by tauto; reflexivity.
Qed.

Lemma cpython_pmf_refused N K n k :
  ~ invalid_parameters N K n -> ~ impossible_target K n k ->
  coefficient_refused N K n k ->
  CPython.hypergeometric_pmf N K n k = Raise OverflowError.
Proof.
  unfold invalid_parameters, impossible_target; intros Hv Hk Hr.
  unfold CPython.hypergeometric_pmf.
  destruct (Z.gtb_spec K N), (Z.gtb_spec n N), (Z.ltb_spec N 1);
    simpl; try lia.
  destruct (Z.gtb_spec k n), (Z.gtb_spec k K), (Z.ltb_spec k 0);
    simpl; try lia.
  destruct (comb_refused_dec K k) as [Hr1|Hr1].
  { rewrite (cpython_comb_refused K k) by (lia || exact Hr1); reflexivity. }
  rewrite (cpython_comb_within K k), comb_nonneg by (lia || exact Hr1); simpl.
  destruct (comb_refused_dec (N - K) (n - k)) as [Hr2|Hr2].
  { rewrite (cpython_comb_refused (N - K) (n - k)) by (lia || exact Hr2);
    reflexivity. }
  rewrite (cpython_comb_within (N - K) (n - k)), comb_nonneg
    by (lia || exact Hr2);
    simpl.
  destruct Hr as [Hr|[Hr|Hr]]; [done|done|].
  rewrite (cpython_comb_refused N n) by (lia || exact Hr); reflexivity.
Qed.

End SizeLimit.

(** On the valid parameters [N = K = n = 2^64] and the target [2^63],
    which is neither negative nor above [n] or [K], the first coefficient,
    [comb(2^64, 2^63)], is refused: the call raises [OverflowError], it
    neither returns nor raises the "Invalid Parameters" error. *)
Lemma pmf_overflow_on_valid_parameters :
  ~ invalid_parameters (2 ^ 64) (2 ^ 64) (2 ^ 64)
  /\ CPython.hypergeometric_pmf (2 ^ 64) (2 ^ 64) (2 ^ 64) (2 ^ 63)
     = Raise OverflowError
  /\ ~ returns (CPython.hypergeometric_pmf (2 ^ 64) (2 ^ 64) (2 ^ 64) (2 ^ 63)).
Proof.
  assert (E : CPython.hypergeometric_pmf (2 ^ 64) (2 ^ 64) (2 ^ 64) (2 ^ 63)
              = Raise OverflowError) by (vm_compute; reflexivity).
  split; [unfold invalid_parameters; lia|].
  split; [exact E|].
  rewrite E; intros [v Hv]; discriminate.
Qed.

(** C7: [hypergeometric_pmf] raises the "Invalid Parameters" error exactly
    when [total_successes > total_population], [draws > total_population]
    or [total_population < 1]. On every other integer input it returns a
    value, unless the target is possible and one of the coefficients
    [comb(K, k)], [comb(N - K, n - k)], [comb(N, n)] is refused for its
    size, [min(k, n - k) > 2^63 - 1]: then it raises [OverflowError]. It
    raises nothing else. *)
Theorem pmf_raises_invalid_parameters_or_overflow (N K n k : Z) :
  (invalid_parameters N K n
   /\ CPython.hypergeometric_pmf N K n k
      = Raise (ValueError "Invalid Parameters"))
  \/ (~ invalid_parameters N K n
      /\ ~ impossible_target K n k
      /\ coefficient_refused N K n k
      /\ CPython.hypergeometric_pmf N K n k = Raise OverflowError)
  \/ (~ invalid_parameters N K n
      /\ (impossible_target K n k \/ ~ coefficient_refused N K n k)
      /\ returns (CPython.hypergeometric_pmf N K n k)).
Proof.
  destruct (invalid_parameters_dec N K n) as [Hi|Hv].
  { left; split; [exact Hi|]; apply cpython_pmf_invalid, Hi. }
  right.
  destruct (impossible_target_dec K n k) as [Hk|Hk].
  { right; split; [exact Hv|]; split; [left; exact Hk|].
    eexists; apply cpython_pmf_impossible; assumption. }
  assert (Hdec : coefficient_refused N K n k \/ ~ coefficient_refused N K n k).
  { unfold coefficient_refused.
    destruct (comb_refused_dec K k), (comb_refused_dec (N - K) (n - k)),
      (comb_refused_dec N n); tauto. }
  destruct Hdec as [Hr|Hr].
  - left; split; [exact Hv|]; split; [exact Hk|]; split; [exact Hr|].
    apply cpython_pmf_refused; assumption.
  - right; split; [exact Hv|]; split; [right; exact Hr|].
    rewrite cpython_pmf_within by exact Hr.
    destruct (pmf_possible N K n k Hv Hk) as (_ & _ & E).
    eexists; exact E.
Qed.

(** C6: on valid parameters and a target with
    [0 <= target_successes <= min(draws, total_successes)], the call
    returns a tuple whose fraction is in lowest terms,
    [gcd(numerator, denominator) = 1], and equals
    [C(K, k) * C(N - K, n - k) / C(N, n)] exactly. *)
Theorem pmf_fraction_reduced_and_exact (N K n k : Z) :
  ~ invalid_parameters N K n ->
  0 <= k <= Z.min n K ->
  exists p_value numerator denominator,
    hypergeometric_pmf N K n k
    = Return (PmfTuple p_value numerator denominator)
    /\ Z.gcd numerator denominator = 1
    /\ 0 <= numerator /\ 0 < denominator /\ 0 < choose N n
    /\ numerator * choose N n
       = denominator * (choose K k * choose (N - K) (n - k)).
Proof.
  intros Hv Hk.
  assert (Hp : ~ impossible_target K n k) by (unfold impossible_target; lia).
  destruct (pmf_possible N K n k Hv Hp) as (Ha & Hb & E).
  set (a := choose K k * choose (N - K) (n - k)) in *.
  set (b := choose N n) in *.
  assert (Hg : 0 < Z.gcd a b).
  { pose proof (Z.gcd_nonneg a b).
    destruct (decide (Z.gcd a b = 0)) as [E0|]; [|lia].
    apply Z.gcd_eq_0_r in E0; lia. }
  destruct (Z.gcd_divide_l a b) as [a' Ea].
  destruct (Z.gcd_divide_r a b) as [b' Eb].
  assert (Hqa : a / Z.gcd a b = a').
  { rewrite Ea at 1; apply Z.div_mul; lia. }
  assert (Hqb : b / Z.gcd a b = b').
  { rewrite Eb at 1; apply Z.div_mul; lia. }
  eexists _, _, _; split; [exact E|].
  split; [apply Z.gcd_div_gcd; [lia|reflexivity]|].
  rewrite Hqa, Hqb.
  repeat split; try nia.
Qed.

Lemma pmf_fraction_reduced_and_exact_witness :
  exists p_value numerator denominator,
    hypergeometric_pmf 10 5 2 2
    = Return (PmfTuple p_value numerator denominator)
    /\ Z.gcd numerator denominator = 1
    /\ 0 <= numerator /\ 0 < denominator /\ 0 < choose 10 2
    /\ numerator * choose 10 2
       = denominator * (choose 5 2 * choose (10 - 5) (2 - 2)).
Proof.
  apply (pmf_fraction_reduced_and_exact 10 5 2 2).
  - unfold invalid_parameters; lia.
  - lia.
Defined.

(** C3: a target that is negative or exceeds [draws] or [total_successes]
    has probability zero, but the call hands back the bare float [0.0] and
    not a tuple [(p_value, numerator, denominator)]. *)
Theorem pmf_impossible_target_returns_bare_float :
  hypergeometric_pmf 10 5 2 3 = Return (PmfFloat (S754_zero false))
  /\ forall p_value numerator denominator,
       hypergeometric_pmf 10 5 2 3
       <> Return (PmfTuple p_value numerator denominator).
Proof. split; [reflexivity|intros p a b; discriminate]. Qed.

(** ** [hypergeometric_cdf] *)

Lemma cdf_eq_impossible N K n k :
  ~ invalid_parameters N K n -> impossible_target K n k ->
  hypergeometric_cdf N K n k "eq" = Raise TypeError.
Proof.
  intros Hv Hk; unfold hypergeometric_cdf; simpl.
  rewrite (pmf_impossible N K n k Hv Hk); reflexivity.
Qed.

Lemma cdf_unrecognized N K n k inequality :
  ~ recognized inequality ->
  hypergeometric_cdf N K n k inequality
  = Raise (ValueError "Invalid Inequality Option").
Proof.
  unfold recognized, hypergeometric_cdf, k_values_of; intros Hr.
  repeat match goal with
         | |- context [String.eqb inequality ?token] =>
             destruct (String.eqb_spec inequality token) as [->|_];
             [exfalso; apply Hr; set_solver|]
         end.
  reflexivity.
Qed.

Lemma outcomes_of_in_range N K n k_values :
  ~ invalid_parameters N K n ->
  Forall (fun k => 0 <= k <= Z.min n K) k_values ->
  returns (outcomes_of N K n k_values).
Proof.
  intros Hv; induction 1 as [|k ks Hk _ IH]; [eexists; reflexivity|].
  assert (Hp : ~ impossible_target K n k) by (unfold impossible_target; lia).
  destruct (pmf_possible N K n k Hv Hp) as (_ & _ & E).
  destruct IH as [ps Hps].
  cbn [outcomes_of]; rewrite E; simpl; rewrite Hps; simpl.
  eexists; reflexivity.
Qed.

(** With a recognized relation and a target within
    [0, min(draws, total_successes)], every [k] asked of
    [hypergeometric_pmf] is possible and the sum is returned. *)
Lemma cdf_in_range_returns N K n k inequality :
  ~ invalid_parameters N K n ->
  recognized inequality ->
  0 <= k <= Z.min n K ->
  returns (hypergeometric_cdf N K n k inequality).
Proof.
  intros Hv Hr Hk; unfold hypergeometric_cdf.
  assert (Hks : exists k_values,
            k_values_of inequality k (Z.min n K) = Return k_values
            /\ Forall (fun k => 0 <= k <= Z.min n K) k_values).
  { unfold recognized in Hr.
    repeat (apply elem_of_cons in Hr as [->|Hr]); [..|inversion Hr];
      eexists; (split; [reflexivity|]);
      rewrite ?Forall_app, ?Forall_singleton, ?Forall_forall;
      repeat split; intros;
      repeat match goal with
             | H : _ ∈ Py.range _ _ |- _ => apply elem_of_range in H
             end; lia. }
  destruct Hks as (k_values & -> & Hks); simpl.
  destruct (outcomes_of_in_range N K n k_values Hv Hks) as [ps ->]; simpl.
  eexists; reflexivity.
Qed.

(** C4: with the recognized relation ["eq"] and valid parameters, a target
    above [draws] makes [hypergeometric_cdf] raise: the bare float of
    [hypergeometric_pmf] cannot be subscripted. *)
Theorem cdf_recognized_relation_raises :
  hypergeometric_pmf 10 5 2 3 = Return (PmfFloat (S754_zero false))
  /\ hypergeometric_cdf 10 5 2 3 "eq" = Raise TypeError
  /\ hypergeometric_cdf 10 5 2 3 "lte" = Raise TypeError.
Proof. repeat split; reflexivity. Qed.

(** ** The outcome tuples *)

Section Rolls.

Lemma bind_singleton_fmap {A B} (f : A -> B) (l : list A) :
  (l ≫= fun x => [f x]) = f <$> l.
Proof.
  induction l as [|x l IH]; [reflexivity|].
  rewrite bind_cons, fmap_cons, IH; reflexivity.
Qed.

Lemma product_cons pool pools :
  product (pool :: pools) = pool ≫= fun x => cons x <$> product pools.
Proof.
  simpl; apply list_bind_ext; [|reflexivity].
  intros x; apply bind_singleton_fmap.
Qed.

Lemma elem_of_product roll pools :
  roll ∈ product pools <-> Forall2 (fun x pool => x ∈ pool) roll pools.
Proof.
  revert roll; induction pools as [|pool pools IH]; intros roll.
  - simpl; rewrite list_elem_of_singleton; split.
    + intros ->; constructor.
    + intros H; inversion H; reflexivity.
  - rewrite product_cons, list_elem_of_bind; split.
    + intros (x & Hr & Hx).
      apply list_elem_of_fmap in Hr as (r & -> & Hr).
      constructor; [exact Hx|]; apply IH, Hr.
    + intros H; inversion H as [|x ? r ? Hx Hr]; subst.
      exists x; split; [|exact Hx].
      apply list_elem_of_fmap; exists r; split; [reflexivity|].
      apply IH, Hr.
Qed.

Lemma length_bind_const {A B} (f : A -> list B) (l : list A) n :
  (forall x, length (f x) = n) -> length (l ≫= f) = (length l * n)%nat.
Proof.
  intros Hf; induction l as [|x l IH]; [reflexivity|].
  rewrite bind_cons, length_app, Hf, IH; simpl; lia.
Qed.

Lemma length_product pools :
  length (product pools)
  = foldr (fun pool n => (length pool * n)%nat) 1%nat pools.
Proof.
  induction pools as [|pool pools IH]; [reflexivity|].
  rewrite product_cons.
  rewrite (length_bind_const _ _ (length (product pools))).
  - simpl; rewrite IH; reflexivity.
  - intros x; apply length_fmap.
Qed.

Lemma elem_of_rolls roll dice :
  roll ∈ rolls_of dice <-> Forall2 (fun x d => 1 <= x <= d) roll dice.
Proof.
  unfold rolls_of; rewrite elem_of_product, Forall2_fmap_r.
  split; intros H; eapply Forall2_impl; try exact H; simpl; intros x d Hx.
  - apply elem_of_range in Hx; lia.
  - apply elem_of_range; lia.
Qed.

Lemma num_cases_of_foldr dice : num_cases_of dice = faces_product dice.
Proof.
  unfold num_cases_of, faces_product.
  assert (G : forall a, fold_left Z.mul dice a = a * foldr Z.mul 1 dice).
  { induction dice as [|d dice IH]; intros a; simpl; [lia|].
    rewrite IH; lia. }
  rewrite G; lia.
Qed.

(** The enumeration has as many tuples as the product of the faces. *)
Lemma length_rolls dice :
  Forall (fun d => 0 <= d) dice ->
  Z.of_nat (length (rolls_of dice)) = num_cases_of dice.
Proof.
  intros Hd; rewrite num_cases_of_foldr.
  unfold rolls_of, faces_product; rewrite length_product.
  induction Hd as [|d dice Hd0 Hd IH]; [reflexivity|].
  rewrite fmap_cons; cbn [foldr].
  rewrite Nat2Z.inj_mul, IH, length_range; lia.
Qed.

(** Every tuple sums to at least the number of dice and at most the sum
    of the faces. *)
Lemma sum_roll_bounds roll dice :
  Forall2 (fun x d => 1 <= x <= d) roll dice ->
  Z.of_nat (length dice) <= Py.sum roll <= Py.sum dice.
Proof.
  induction 1 as [|x d roll dice Hx H IH]; simpl; [lia|].
  unfold Py.sum in *; simpl; lia.
Qed.

Lemma ones_in_rolls dice :
  Forall (fun d => 1 <= d) dice ->
  replicate (length dice) 1 ∈ rolls_of dice.
Proof.
  intros Hd; apply elem_of_rolls.
  induction Hd as [|d dice Hd0 Hd IH]; simpl; constructor; [lia|exact IH].
Qed.

Lemma sum_ones n : Py.sum (replicate n 1) = Z.of_nat n.
Proof.
  induction n as [|n IH]; [reflexivity|].
  unfold Py.sum in *; simpl replicate; simpl foldr; rewrite IH; lia.
Qed.

End Rolls.

(** ** The distribution of sums *)

Section Distribution.

Lemma count_where_cons {A} (P : A -> bool) x l :
  count_where P (x :: l) = (if P x then 1 else 0) + count_where P l.
Proof.
  unfold count_where; simpl; destruct (P x); simpl length; lia.
Qed.

Lemma count_where_fmap {A B} (f : A -> B) (P : B -> bool) l :
  count_where P (f <$> l) = count_where (fun x => P (f x)) l.
Proof.
  induction l as [|x l IH]; [reflexivity|].
  rewrite fmap_cons, !count_where_cons, IH; reflexivity.
Qed.

Lemma count_where_all {A} (P : A -> bool) l :
  Forall (fun x => P x = true) l -> count_where P l = Z.of_nat (length l).
Proof.
  induction 1 as [|x l Hx H IH]; [reflexivity|].
  rewrite count_where_cons, IH, Hx; simpl length; lia.
Qed.

Lemma weight_app P l1 l2 : weight P (l1 ++ l2) = weight P l1 + weight P l2.
Proof.
  induction l1 as [|[k v] l1 IH]; simpl; [reflexivity|].
  rewrite IH; destruct (P k); lia.
Qed.

Lemma weight_all P l :
  Forall (fun item => P item.1 = true) l -> weight P l = total_count l.
Proof.
  induction 1 as [|[k v] l Hk H IH]; [reflexivity|].
  unfold total_count in *; simpl in *; rewrite Hk, IH; reflexivity.
Qed.

Lemma weight_none P l :
  Forall (fun item => P item.1 = false) l -> weight P l = 0.
Proof.
  induction 1 as [|[k v] l Hk H IH]; [reflexivity|].
  simpl in *; rewrite Hk, IH; reflexivity.
Qed.

#[local] Instance weight_perm P : Proper ((≡ₚ) ==> (=)) (weight P).
Proof.
  intros l1 l2 H.
  induction H as [|x l1 l2 H IH|x y l|l1 l2 l3 H1 IH1 H2 IH2]; simpl.
  - reflexivity.
  - rewrite IH; reflexivity.
  - destruct (P x.1), (P y.1); lia.
  - congruence.
Qed.

Lemma count_one_lookup c x k :
  count_one c x !! k
  = if decide (x = k) then Some (default 0 (c !! x) + 1) else c !! k.
Proof. unfold count_one; apply lookup_insert. Qed.

(** Counting one more element adds one to the weight of its key. *)
Lemma weight_count_one P (c : gmap Z Z) x :
  weight P (map_to_list (count_one c x))
  = weight P (map_to_list c) + (if P x then 1 else 0).
Proof.
  unfold count_one; destruct (c !! x) as [v|] eqn:E; simpl.
  - rewrite <- insert_delete_eq.
    rewrite map_to_list_insert by apply lookup_delete_eq.
    rewrite <- (map_to_list_delete c x v E).
    simpl; destruct (P x); lia.
  - rewrite map_to_list_insert by exact E.
    simpl; destruct (P x); lia.
Qed.

Lemma weight_fold_count P l (c : gmap Z Z) :
  weight P (map_to_list (fold_left count_one l c))
  = weight P (map_to_list c) + count_where P l.
Proof.
  revert c; induction l as [|x l IH]; intros c; simpl.
  - unfold count_where; simpl; lia.
  - rewrite IH, weight_count_one, count_where_cons; lia.
Qed.

Lemma weight_Counter P l :
  weight P (map_to_list (Counter l)) = count_where P l.
Proof.
  unfold Counter; rewrite weight_fold_count, map_to_list_empty; reflexivity.
Qed.

Lemma fold_count_positive l (c : gmap Z Z) :
  map_Forall (fun _ v => 0 < v) c ->
  map_Forall (fun _ v => 0 < v) (fold_left count_one l c).
Proof.
  revert c; induction l as [|x l IH]; intros c Hc; [exact Hc|].
  simpl; apply IH; intros k v.
  rewrite count_one_lookup; destruct (decide (x = k)) as [->|_].
  - intros [= <-]; destruct (c !! k) as [w|] eqn:E; simpl; [|lia].
    specialize (Hc k w E); simpl in Hc; lia.
  - apply Hc.
Qed.

Lemma fold_count_keys l (c : gmap Z Z) k :
  is_Some (fold_left count_one l c !! k) <-> k ∈ l \/ is_Some (c !! k).
Proof.
  revert c; induction l as [|x l IH]; intros c; simpl.
  - rewrite elem_of_nil; tauto.
  - rewrite IH, count_one_lookup, elem_of_cons.
    destruct (decide (x = k)) as [->|Hne].
    + split; [tauto|]; intros _; right; eexists; reflexivity.
    + split; [tauto|]; intros [[->|H]|H]; tauto.
Qed.

Lemma Counter_positive l : map_Forall (fun _ v => 0 < v) (Counter l).
Proof. apply fold_count_positive, map_Forall_empty. Qed.

Lemma Counter_keys l k : is_Some (Counter l !! k) <-> k ∈ l.
Proof.
  unfold Counter; rewrite fold_count_keys, lookup_empty, is_Some_alt; tauto.
Qed.

#[local] Instance item_ge_trans : Transitive item_ge.
Proof. intros [a1 a2] [b1 b2] [c1 c2]; unfold item_ge; simpl; lia. Qed.

#[local] Instance item_ge_total : Total item_ge.
Proof. intros [a1 a2] [b1 b2]; unfold item_ge; simpl; lia. Qed.

Variable dice : list Z.

Lemma distro_perm :
  distro_of dice ≡ₚ map_to_list (Counter (Py.sum <$> rolls_of dice)).
Proof. apply merge_sort_Permutation. Qed.

Lemma distro_sorted : StronglySorted item_ge (distro_of dice).
Proof. apply StronglySorted_merge_sort; apply _. Qed.

Lemma distro_NoDup : NoDup (distro_of dice).*1.
Proof. rewrite distro_perm; apply NoDup_fst_map_to_list. Qed.

Lemma elem_of_distro k v :
  (k, v) ∈ distro_of dice <->
  Counter (Py.sum <$> rolls_of dice) !! k = Some v.
Proof. rewrite distro_perm; apply elem_of_map_to_list. Qed.

Lemma distro_count_positive k v : (k, v) ∈ distro_of dice -> 0 < v.
Proof.
  rewrite elem_of_distro; intros H.
  exact (Counter_positive _ k v H).
Qed.

Lemma distro_key_is_sum k v :
  (k, v) ∈ distro_of dice -> exists roll, roll ∈ rolls_of dice /\ Py.sum roll = k.
Proof.
  rewrite elem_of_distro; intros H.
  assert (Hk : k ∈ Py.sum <$> rolls_of dice).
  { apply Counter_keys; eexists; exact H. }
  apply list_elem_of_fmap in Hk as (roll & -> & Hr); eauto.
Qed.

Lemma sum_is_distro_key roll :
  roll ∈ rolls_of dice -> exists v, (Py.sum roll, v) ∈ distro_of dice.
Proof.
  intros Hr.
  assert (Hk : Py.sum roll ∈ Py.sum <$> rolls_of dice).
  { apply list_elem_of_fmap; eauto. }
  apply Counter_keys in Hk as [v Hv]; exists v; apply elem_of_distro, Hv.
Qed.

(** The counts of the keys that satisfy [P] add up to the number of
    outcome tuples whose sum satisfies [P]. *)
Lemma distro_weight P :
  weight P (distro_of dice)
  = count_where (fun roll => P (Py.sum roll)) (rolls_of dice).
Proof. rewrite distro_perm, weight_Counter; apply count_where_fmap. Qed.

(** The counts add up to the product of the faces. *)
Lemma distro_total :
  Forall (fun d => 0 <= d) dice ->
  total_count (distro_of dice) = faces_product dice.
Proof.
  intros Hd; unfold total_count; rewrite distro_weight.
  rewrite count_where_all by (apply Forall_forall; reflexivity).
  rewrite length_rolls by exact Hd; apply num_cases_of_foldr.
Qed.

(** Every key lies between the number of dice and the sum of the faces. *)
Lemma distro_key_range k v :
  (k, v) ∈ distro_of dice -> Z.of_nat (length dice) <= k <= Py.sum dice.
Proof.
  intros H; apply distro_key_is_sum in H as (roll & Hr & <-).
  apply sum_roll_bounds, elem_of_rolls, Hr.
Qed.

End Distribution.

(** ** The scan for the threshold *)

Section Scan.

Lemma total_count_cons k v l : total_count ((k, v) :: l) = v + total_count l.
Proof. reflexivity. Qed.

Lemma total_count_positive l :
  Forall (fun item => 0 < item.2) l -> l <> [] -> 0 < total_count l.
Proof.
  intros H; induction H as [|[k v] l Hv H IH]; intros Hne; [done|].
  rewrite total_count_cons; simpl in Hv.
  destruct l as [|item l]; [unfold total_count; simpl; lia|].
  specialize (IH ltac:(done)); lia.
Qed.

(** A non-zero result is a key of the distribution at which the running
    total equals the target. *)
Lemma scan_found target distro : forall cum t,
  scan target cum distro = PyInt t -> t <> 0 ->
  exists before v after,
    distro = before ++ (t, v) :: after
    /\ Py.int_eq_float (cum + total_count before + v) target = true.
Proof.
  induction distro as [|[k v] distro IH]; intros cum t; simpl; [done|].
  destruct (Py.int_eq_float (cum + v) target) eqn:Eeq.
  - intros [= <-] _; exists [], v, distro; split; [reflexivity|].
    unfold total_count; simpl; rewrite Z.add_0_r; exact Eeq.
  - destruct (Py.int_gt_float (cum + v) target); [intros [= <-]; done|].
    intros Hs Ht; destruct (IH _ _ Hs Ht) as (before & w & after & -> & E).
    exists ((k, v) :: before), w, after; split; [reflexivity|].
    rewrite total_count_cons, <- E; f_equal; lia.
Qed.

(** In a distribution sorted from the largest key down, the items up to
    the key [t] are those whose key is at least [t]. *)
Lemma sorted_prefix_weight before t v after :
  StronglySorted item_ge (before ++ (t, v) :: after) ->
  NoDup (before ++ (t, v) :: after).*1 ->
  weight (fun k => t <=? k) (before ++ (t, v) :: after)
  = total_count before + v.
Proof.
  intros Hs Hn.
  apply StronglySorted_app in Hs as (Hba & _ & Hs).
  apply StronglySorted_cons in Hs as [Hs _].
  rewrite fmap_app, fmap_cons in Hn; simpl in Hn.
  apply NoDup_app in Hn as (_ & _ & Hn); apply NoDup_cons in Hn as [Hn _].
  rewrite weight_app, (weight_all _ before); simpl.
  - rewrite Z.leb_refl, weight_none; [lia|].
    apply Forall_forall; intros [k w] Hk; simpl.
    assert (k <> t).
    { intros ->; apply Hn, list_elem_of_fmap; exists (t, w); done. }
    rewrite Forall_forall in Hs; specialize (Hs _ Hk).
    unfold item_ge in Hs; simpl in Hs; lia.
  - apply Forall_forall; intros [k w] Hk; simpl.
    specialize (Hba (k, w) (t, v) Hk ltac:(left)).
    unfold item_ge in Hba; simpl in Hba; lia.
Qed.

(** When the target is the whole of the counts, the scan runs to the last
    key. *)
Lemma scan_exhausts target T distro : forall cum k v,
  (forall z, z < T ->
     Py.int_eq_float z target = false /\ Py.int_gt_float z target = false) ->
  Py.int_eq_float T target = true ->
  Forall (fun item => 0 < item.2) distro ->
  last distro = Some (k, v) ->
  cum + total_count distro = T ->
  scan target cum distro = PyInt k.
Proof.
  induction distro as [|[k' v'] distro IH]; intros cum k v Hlt Heq Hpos Hl HT;
    [done|].
  apply Forall_cons in Hpos as [Hv Hpos]; simpl in Hv.
  rewrite total_count_cons in HT; simpl.
  destruct distro as [|item distro].
  - injection Hl as [= -> ->].
    unfold total_count in HT; simpl in HT.
    replace (cum + v) with T by lia; rewrite Heq; reflexivity.
  - assert (0 < total_count (item :: distro))
      by (apply total_count_positive; done).
    destruct (Hlt (cum + v') ltac:(lia)) as [-> ->].
    apply (IH _ k v Hlt Heq Hpos); [|lia].
    rewrite last_cons_cons in Hl; exact Hl.
Qed.

Lemma distro_last_key dice :
  Forall (fun d => 1 <= d) dice ->
  exists v, last (distro_of dice) = Some (Z.of_nat (length dice), v).
Proof.
  intros Hd.
  destruct (sum_is_distro_key dice _ (ones_in_rolls dice Hd)) as [v0 H0].
  rewrite sum_ones in H0.
  destruct (last (distro_of dice)) as [[k v]|] eqn:El.
  - exists v; do 2 f_equal.
    apply last_Some in El as [front El].
    assert (Hk : (k, v) ∈ distro_of dice).
    { rewrite El; apply elem_of_app; right; left. }
    apply distro_key_range in Hk.
    pose proof (distro_sorted dice) as Hs; rewrite El in Hs, H0.
    apply elem_of_app in H0 as [H0|H0].
    + pose proof (StronglySorted_app_1_elem_of _ _ _ _ _ Hs H0
                    ltac:(left)) as Hge.
      unfold item_ge in Hge; simpl in Hge; lia.
    + apply list_elem_of_singleton in H0; congruence.
  - apply last_None in El; rewrite El in H0; inversion H0.
Qed.

End Scan.

(** ** [validate_distro] *)

Lemma validate_distro_not_divisible numerator denominator dice :
  denominator <> 0 ->
  num_cases_of dice mod denominator <> 0 ->
  validate_distro numerator denominator dice = Return (PyInt 0).
Proof.
  intros Hd Hm; unfold validate_distro, Py.mod_.
  destruct (Z.eqb_spec denominator 0); [done|]; simpl.
  destruct (Z.eqb_spec (num_cases_of dice mod denominator) 0); done.
Qed.

Lemma validate_distro_divisible numerator denominator dice target :
  denominator <> 0 ->
  num_cases_of dice mod denominator = 0 ->
  target_cases_of numerator denominator (num_cases_of dice) = Return target ->
  validate_distro numerator denominator dice
  = Return (scan target 0 (distro_of dice)).
Proof.
  intros Hd Hm Ht; unfold validate_distro, Py.mod_.
  destruct (Z.eqb_spec denominator 0); [done|]; simpl.
  rewrite Hm, Ht; reflexivity.
Qed.

Lemma validate_distro_inv numerator denominator dice v :
  validate_distro numerator denominator dice = Return v ->
  denominator <> 0
  /\ ((num_cases_of dice mod denominator <> 0 /\ v = PyInt 0)
      \/ (num_cases_of dice mod denominator = 0
          /\ exists target,
               target_cases_of numerator denominator (num_cases_of dice)
               = Return target
               /\ v = scan target 0 (distro_of dice))).
Proof.
  unfold validate_distro, Py.mod_.
  destruct (Z.eqb_spec denominator 0); [done|]; simpl.
  destruct (Z.eqb_spec (num_cases_of dice mod denominator) 0); simpl.
  - destruct (target_cases_of _ _ _) as [target|]; simpl; [|done].
    intros [= <-]; split; [done|]; right; split; [done|]; eauto.
  - intros [= <-]; split; [done|]; left; done.
Qed.

(** A non-zero threshold is an achievable sum, and the number of outcome
    tuples that reach it is what the float [target_cases] holds. *)
Lemma validate_distro_threshold numerator denominator dice t :
  validate_distro numerator denominator dice = Return (PyInt t) ->
  t <> 0 ->
  Z.of_nat (length dice) <= t <= Py.sum dice
  /\ num_cases_of dice mod denominator = 0
  /\ exists target,
       target_cases_of numerator denominator (num_cases_of dice)
       = Return target
       /\ Py.int_eq_float (outcomes_at_least t dice) target = true.
Proof.
  intros Hv Ht.
  apply validate_distro_inv in Hv as (_ & [[_ [= ->]]|(Hm & target & E & Hs)]);
    [done|].
  symmetry in Hs; apply scan_found in Hs as (before & v & after & Hd & Heq);
    [|exact Ht].
  assert (Hin : (t, v) ∈ distro_of dice).
  { rewrite Hd; apply elem_of_app; right; left. }
  split; [eapply distro_key_range, Hin|].
  split; [exact Hm|]; exists target; split; [exact E|].
  unfold outcomes_at_least.
  rewrite <- (distro_weight dice (fun k => t <=? k)), Hd.
  rewrite sorted_prefix_weight.
  - rewrite <- Heq; f_equal; lia.
  - rewrite <- Hd; apply distro_sorted.
  - rewrite <- Hd; apply distro_NoDup.
Qed.

(** With every face at least 1 and a target that the running total meets
    only when all the outcomes are counted, the result is the smallest
    sum: the number of dice. *)
Lemma validate_distro_whole numerator denominator dice target :
  Forall (fun d => 1 <= d) dice ->
  denominator <> 0 ->
  num_cases_of dice mod denominator = 0 ->
  target_cases_of numerator denominator (num_cases_of dice) = Return target ->
  (forall z, z < num_cases_of dice ->
     Py.int_eq_float z target = false /\ Py.int_gt_float z target = false) ->
  Py.int_eq_float (num_cases_of dice) target = true ->
  validate_distro numerator denominator dice
  = Return (PyInt (Z.of_nat (length dice))).
Proof.
  intros Hd Hden Hm Ht Hlt Heq.
  rewrite (validate_distro_divisible _ _ _ target) by assumption.
  destruct (distro_last_key dice Hd) as [v Hl].
  f_equal; apply (scan_exhausts target (num_cases_of dice) _ 0 _ v);
    try assumption.
  - apply Forall_forall; intros [k w] Hk; simpl.
    eapply distro_count_positive, Hk.
  - rewrite distro_total, num_cases_of_foldr; [lia|].
    eapply Forall_impl; [exact Hd|]; simpl; lia.
Qed.

(** Every outcome reaches the smallest sum. *)
Lemma outcomes_at_least_length dice :
  Forall (fun d => 1 <= d) dice ->
  outcomes_at_least (Z.of_nat (length dice)) dice = num_cases_of dice.
Proof.
  intros Hd; unfold outcomes_at_least.
  rewrite count_where_all.
  - apply length_rolls; eapply Forall_impl; [exact Hd|]; simpl; lia.
  - apply Forall_forall; intros roll Hr.
    apply elem_of_rolls, sum_roll_bounds in Hr; lia.
Qed.

(** C8: two six-sided dice and the target 1/6. The sums 12, 11, 10 have the
    counts 1, 2, 3; the target count is 1 * 36 / 6 = 6 = 1 + 2 + 3; the
    threshold returned is 10. *)
Theorem validate_distro_two_six_sided_dice :
  distro_of [6; 6]
  = [(12, 1); (11, 2); (10, 3); (9, 4); (8, 5); (7, 6);
     (6, 5); (5, 4); (4, 3); (3, 2); (2, 1)]
  /\ num_cases_of [6; 6] = 36
  /\ (exists target_cases,
        target_cases_of 1 6 (num_cases_of [6; 6]) = Return target_cases
        /\ Py.int_compare_float (1 + 2 + 3) target_cases = Some Eq)
  /\ validate_distro 1 6 [6; 6] = Return (PyInt 10).
Proof.
  split; [vm_compute; reflexivity|].
  split; [reflexivity|].
  split; [eexists; split; vm_compute; reflexivity|].
  vm_compute; reflexivity.
Qed.

(** C2: with numerator 2 and denominator 1 the target count 12 of one
    six-sided die is above all 6 outcomes; the scan ends without meeting
    it and the call hands back [None], not the integer 0. *)
Theorem validate_distro_returns_none :
  num_cases_of [6] mod 1 = 0
  /\ (exists target_cases,
        target_cases_of 2 1 (num_cases_of [6]) = Return target_cases
        /\ Py.int_compare_float 12 target_cases = Some Eq)
  /\ validate_distro 2 1 [6] = Return PyNone.
Proof.
  split; [reflexivity|].
  split; [eexists; split; vm_compute; reflexivity|].
  vm_compute; reflexivity.
Qed.

(** C5: [target_cases] is the float quotient, the exact quotient rounded to
    53 significant bits. For 27 four-sided dice (2^54 outcomes) and the
    fraction (2^54 - 1) / 2^54, the exact target count is 2^54 - 1 and the
    float compared with the running total is 2^54. The same happens with
    one two-sided die and the fraction (2^53 + 1) / 1: exact 2^54 + 2,
    float 2^54. *)
Theorem target_cases_is_rounded :
  (let num_cases := num_cases_of (replicate 27 4) in
   num_cases = 2 ^ 54
   /\ num_cases mod 2 ^ 54 = 0
   /\ (2 ^ 54 - 1) * num_cases / 2 ^ 54 = 2 ^ 54 - 1
   /\ exists target_cases,
        target_cases_of (2 ^ 54 - 1) (2 ^ 54) num_cases = Return target_cases
        /\ Py.int_compare_float (2 ^ 54) target_cases = Some Eq
        /\ Py.int_compare_float (2 ^ 54 - 1) target_cases = Some Lt)
  /\ (let num_cases := num_cases_of [2] in
      num_cases mod 1 = 0
      /\ (2 ^ 53 + 1) * num_cases / 1 = 2 ^ 54 + 2
      /\ exists target_cases,
           target_cases_of (2 ^ 53 + 1) 1 num_cases = Return target_cases
           /\ Py.int_compare_float (2 ^ 54) target_cases = Some Eq
           /\ Py.int_compare_float (2 ^ 54 + 2) target_cases = Some Gt).
Proof.
  split; cbv zeta.
  - split; [vm_compute; reflexivity|].
    split; [vm_compute; reflexivity|].
    split; [vm_compute; reflexivity|].
    eexists; repeat split; vm_compute; reflexivity.
  - split; [vm_compute; reflexivity|].
    split; [vm_compute; reflexivity|].
    eexists; repeat split; vm_compute; reflexivity.
Qed.

(** ** [combinations_with_replacement] *)

Section Combinations.

Lemma elem_of_tails s pool :
  s ∈ tails pool <-> s <> [] /\ s `suffix_of` pool.
Proof.
  induction pool as [|x pool IH]; simpl.
  - rewrite elem_of_nil; split; [done|].
    intros [Hne Hs]; apply suffix_nil_inv in Hs; done.
  - rewrite elem_of_cons, IH; split.
    + intros [->|[Hne Hs]]; [done|].
      split; [exact Hne|]; apply suffix_cons_r, Hs.
    + intros [Hne Hs]; destruct s as [|y s]; [done|].
      apply suffix_cons_inv in Hs as [->|Hs]; [left|right]; done.
Qed.

Lemma elem_of_combinations_S c pool r :
  c ∈ combinations_with_replacement pool (S r) <->
  exists x s c',
    (x :: s) `suffix_of` pool /\ c = x :: c'
    /\ c' ∈ combinations_with_replacement (x :: s) r.
Proof.
  cbn [combinations_with_replacement]; rewrite list_elem_of_bind; split.
  - intros ([|x s] & Hc & Hs); [inversion Hc|].
    apply elem_of_tails in Hs as [_ Hs].
    apply list_elem_of_fmap in Hc as (c' & -> & Hc'); eauto 10.
  - intros (x & s & c' & Hs & -> & Hc'); exists (x :: s); split.
    + apply list_elem_of_fmap; eauto.
    + apply elem_of_tails; done.
Qed.

Lemma combinations_length r : forall pool c,
  c ∈ combinations_with_replacement pool r -> length c = r.
Proof.
  induction r as [|r IH]; intros pool c.
  - simpl; rewrite list_elem_of_singleton; intros ->; reflexivity.
  - rewrite elem_of_combinations_S; intros (x & s & c' & _ & -> & Hc').
    simpl; f_equal; eapply IH, Hc'.
Qed.

Lemma combinations_from_pool r : forall pool c,
  c ∈ combinations_with_replacement pool r ->
  Forall (fun x => x ∈ pool) c.
Proof.
  induction r as [|r IH]; intros pool c.
  - simpl; rewrite list_elem_of_singleton; intros ->; constructor.
  - rewrite elem_of_combinations_S.
    intros (x & s & c' & [front ->] & -> & Hc').
    constructor.
    + apply elem_of_app; right; left.
    + eapply Forall_impl; [exact (IH _ _ Hc')|]; simpl.
      intros y Hy; apply elem_of_app; right; exact Hy.
Qed.

Lemma combinations_sorted r : forall pool c,
  StronglySorted Z.le pool ->
  c ∈ combinations_with_replacement pool r ->
  StronglySorted Z.le c.
Proof.
  induction r as [|r IH]; intros pool c Hp.
  - simpl; rewrite list_elem_of_singleton; intros ->; constructor.
  - rewrite elem_of_combinations_S.
    intros (x & s & c' & [front ->] & -> & Hc').
    apply StronglySorted_app_1_r in Hp.
    constructor; [eapply IH; eassumption|].
    eapply Forall_impl; [exact (combinations_from_pool _ _ _ Hc')|]; simpl.
    intros y Hy; apply elem_of_cons in Hy as [->|Hy]; [lia|].
    apply StronglySorted_cons in Hp as [Hp _].
    rewrite Forall_forall in Hp; apply Hp, Hy.
Qed.

(** From a pool in non-decreasing order, every non-decreasing selection
    of [r] of its elements is generated. *)
Lemma combinations_complete r : forall pool c,
  StronglySorted Z.le pool ->
  length c = r ->
  Forall (fun x => x ∈ pool) c ->
  StronglySorted Z.le c ->
  c ∈ combinations_with_replacement pool r.
Proof.
  induction r as [|r IH]; intros pool c Hp Hl Hin Hs.
  - destruct c; [left|done].
  - destruct c as [|x c']; [done|].
    apply Forall_cons in Hin as [Hx Hin].
    apply StronglySorted_cons in Hs as [Hxc Hs].
    apply list_elem_of_split_l in Hx as (front & back & -> & Hfront).
    apply elem_of_combinations_S; exists x, back, c'.
    split; [eexists; reflexivity|]; split; [reflexivity|].
    apply IH.
    + eapply StronglySorted_app_1_r, Hp.
    + simpl in Hl; lia.
    + rewrite Forall_forall in Hin, Hxc |- *; intros y Hy.
      specialize (Hin y Hy); specialize (Hxc y Hy).
      apply elem_of_app in Hin as [Hin|Hin]; [|exact Hin].
      pose proof (StronglySorted_app_1_elem_of _ _ _ _ _ Hp Hin
                    ltac:(left)) as Hle.
      assert (y = x) as -> by lia; left.
    + exact Hs.
Qed.

End Combinations.

(** ** The selections that [combinations_with_replacement] enumerates *)

Section Selections.

Lemma combinations_are_selections r : forall pool c,
  c ∈ combinations_with_replacement pool r -> selection pool r c.
Proof.
  induction r as [|r IH]; intros pool c.
  - simpl; rewrite list_elem_of_singleton; intros ->.
    exists []; repeat split; constructor.
  - rewrite elem_of_combinations_S.
    intros (x & s & c' & [front ->] & -> & Hc').
    destruct (IH _ _ Hc') as (ps & Hl & Hs & Hf).
    exists (length front :: ((fun i => length front + i)%nat <$> ps)).
    split; [simpl; rewrite length_fmap, Hl; reflexivity|].
    split.
    + constructor.
      * apply (StronglySorted_fmap _ le le); [|exact Hs].
        intros i j Hij; simpl; lia.
      * apply Forall_fmap, Forall_forall; intros i _; simpl; lia.
    + constructor; [apply list_lookup_middle; reflexivity|].
      apply Forall2_fmap_l.
      eapply Forall2_impl; [exact Hf|]; simpl; intros i d Hi.
      rewrite lookup_app_r by lia.
      replace (length front + i - length front)%nat with i by lia.
      exact Hi.
Qed.

Lemma Forall2_with_Forall {A B} (P : A -> Prop) (R : A -> B -> Prop) l k :
  Forall P l -> Forall2 R l k -> Forall2 (fun a b => P a /\ R a b) l k.
Proof.
  intros HP HR; induction HR as [|a b l k Hab HR IH]; [constructor|].
  apply Forall_cons in HP as [Ha HP]; constructor; [done|apply IH, HP].
Qed.

Lemma selections_are_combinations r : forall pool c,
  selection pool r c -> c ∈ combinations_with_replacement pool r.
Proof.
  induction r as [|r IH]; intros pool c (ps & Hl & Hs & Hf).
  - destruct ps; [|done].
    apply Forall2_nil_inv_l in Hf as ->; left.
  - destruct ps as [|i ps]; [done|].
    apply Forall2_cons_inv_l in Hf as (d & ds & Hi & Hf & ->).
    apply StronglySorted_cons in Hs as [Hle Hs].
    apply elem_of_combinations_S; exists d, (drop (S i) pool), ds.
    split; [|split; [reflexivity|]].
    + exists (take i pool); symmetry; apply take_drop_middle, Hi.
    + apply IH; exists ((fun j => j - i)%nat <$> ps).
      split; [rewrite length_fmap; simpl in Hl; lia|].
      split.
      * apply (StronglySorted_fmap _ le le); [|exact Hs].
        intros j j' Hj; simpl; lia.
      * apply Forall2_fmap_l.
        eapply Forall2_impl;
          [exact (Forall2_with_Forall _ _ _ _ Hle Hf)|]; simpl.
        intros j d' [Hij Hj].
        rewrite <- (drop_S _ _ _ Hi), lookup_drop.
        replace (i + (j - i))%nat with j by lia; exact Hj.
Qed.

Lemma elem_of_combinations pool r c :
  c ∈ combinations_with_replacement pool r <-> selection pool r c.
Proof.
  split; [apply combinations_are_selections|apply selections_are_combinations].
Qed.

Lemma selection_sorted_pool pool r c :
  StronglySorted Z.le pool ->
  selection pool r c <->
  length c = r /\ Forall (fun x => x ∈ pool) c /\ StronglySorted Z.le c.
Proof.
  intros Hp; rewrite <- elem_of_combinations; split.
  - intros Hc; split; [eapply combinations_length, Hc|].
    split; [eapply combinations_from_pool, Hc|].
    eapply combinations_sorted; eassumption.
  - intros (Hl & Hin & Hs); apply combinations_complete; assumption.
Qed.

End Selections.

(** ** [find_dice] *)

Section FindDice.

Variables numerator denominator : Z.

Lemma solutions_among_cons dice candidates :
  solutions_among numerator denominator (dice :: candidates)
  = match validate_distro numerator denominator dice with
    | Return t =>
        if truthy t
        then (dice, t) :: solutions_among numerator denominator candidates
        else solutions_among numerator denominator candidates
    | Raise _ => solutions_among numerator denominator candidates
    end.
Proof.
  unfold solutions_among; simpl.
  destruct (validate_distro numerator denominator dice) as [t|e];
    [destruct (truthy t)|]; reflexivity.
Qed.

Lemma elem_of_solutions_among candidates dice t :
  (dice, t) ∈ solutions_among numerator denominator candidates <->
  dice ∈ candidates /\ is_solution numerator denominator dice t.
Proof.
  unfold solutions_among, is_solution; rewrite list_elem_of_omap; split.
  - intros (d & Hd & E).
    destruct (validate_distro numerator denominator d) as [t'|] eqn:Ev;
      [|done].
    destruct (truthy t') eqn:Et; [|done].
    injection E as [= -> ->]; done.
  - intros (Hd & Ev & Et); exists dice; rewrite Ev, Et; done.
Qed.

Lemma solutions_among_nil candidates :
  Forall (fun dice => returns (validate_distro numerator denominator dice))
    candidates ->
  solutions_among numerator denominator candidates = [] ->
  forall dice, dice ∈ candidates ->
    exists t, validate_distro numerator denominator dice = Return t
              /\ truthy t = false.
Proof.
  intros Hr Hnil dice Hd.
  rewrite Forall_forall in Hr; destruct (Hr dice Hd) as [t Ht].
  exists t; split; [exact Ht|].
  destruct (truthy t) eqn:Et; [|reflexivity].
  assert (H : (dice, t) ∈ solutions_among numerator denominator candidates)
    by (apply elem_of_solutions_among; done).
  rewrite Hnil in H; inversion H.
Qed.

(** The [for] loop appends the solutions among its candidates, in order,
    unless a call of [validate_distro] raises. *)
Lemma try_candidates_spec candidates : forall solutions,
  match try_candidates numerator denominator candidates solutions with
  | Return solutions' =>
      Forall (fun dice =>
                returns (validate_distro numerator denominator dice))
        candidates
      /\ solutions'
         = solutions ++ solutions_among numerator denominator candidates
  | Raise e =>
      exists dice,
        dice ∈ candidates
        /\ validate_distro numerator denominator dice = Raise e
  end.
Proof.
  induction candidates as [|dice candidates IH]; intros solutions.
  - simpl; split; [constructor|]; rewrite app_nil_r; reflexivity.
  - cbn [try_candidates]; rewrite solutions_among_cons.
    destruct (validate_distro numerator denominator dice) as [t|e] eqn:Ev;
      simpl.
    + specialize (IH (if truthy t then solutions ++ [(dice, t)]
                      else solutions)).
      destruct (try_candidates _ _ _ _) as [solutions'|e].
      * destruct IH as [Hr ->]; split.
        -- constructor; [eexists; exact Ev|exact Hr].
        -- destruct (truthy t); [rewrite <- app_assoc|]; reflexivity.
      * destruct IH as (d & Hd & E); exists d; split; [right|]; done.
    + exists dice; split; [left|exact Ev].
Qed.

Variable dice_set : list Z.

(** The [while] loop, entered at size [N] with no solution yet. *)
Lemma search_spec remaining : forall N,
  match search numerator denominator dice_set remaining N [] with
  | Return solutions =>
      (solutions = []
       /\ forall M, (N <= M < N + remaining)%nat ->
            no_solution_of_size numerator denominator dice_set M)
      \/ (exists M, (N <= M < N + remaining)%nat
            /\ solutions <> []
            /\ solutions
               = solutions_among numerator denominator
                   (combinations_with_replacement dice_set M)
            /\ forall M', (N <= M' < M)%nat ->
                 no_solution_of_size numerator denominator dice_set M')
  | Raise e =>
      exists M dice,
        (N <= M < N + remaining)%nat
        /\ dice ∈ combinations_with_replacement dice_set M
        /\ validate_distro numerator denominator dice = Raise e
  end.
Proof.
  induction remaining as [|remaining IH]; intros N.
  - simpl; left; split; [reflexivity|]; intros M HM; lia.
  - cbn [search].
    pose proof (try_candidates_spec
                  (combinations_with_replacement dice_set N) []) as Ht.
    destruct (try_candidates _ _ _ _) as [solutions'|e]; simpl.
    + destruct Ht as [Hr Hs]; simpl in Hs.
      destruct solutions' as [|s solutions'].
      * assert (HN : no_solution_of_size numerator denominator dice_set N)
          by (intros dice Hd; eapply solutions_among_nil; done).
        specialize (IH (S N)).
        destruct (search _ _ _ _ _ _) as [solutions|e].
        -- destruct IH as [[-> Hall]|(M & HM & Hne & -> & Hall)].
           ++ left; split; [reflexivity|]; intros M HM.
              destruct (decide (M = N)) as [->|]; [exact HN|].
              apply Hall; lia.
           ++ right; exists M; split; [lia|]; split; [exact Hne|].
              split; [reflexivity|]; intros M' HM'.
              destruct (decide (M' = N)) as [->|]; [exact HN|].
              apply Hall; lia.
        -- destruct IH as (M & dice & HM & Hd & E).
           exists M, dice; split; [lia|]; done.
      * destruct remaining; simpl; right; exists N;
          (split; [lia|]; split; [done|]; split; [exact Hs|]);
          intros M' HM'; lia.
    + destruct Ht as (dice & Hd & E); exists N, dice; split; [lia|]; done.
Qed.

End FindDice.

Lemma find_dice_cases p_value numerator denominator dice_set limit :
  match find_dice p_value numerator denominator dice_set limit with
  | Return solutions =>
      (solutions = []
       /\ forall N, 1 <= Z.of_nat N <= limit ->
            no_solution_of_size numerator denominator dice_set N)
      \/ (exists N, 1 <= Z.of_nat N <= limit
            /\ solutions <> []
            /\ solutions
               = solutions_among numerator denominator
                   (combinations_with_replacement dice_set N)
            /\ forall M, (1 <= M < N)%nat ->
                 no_solution_of_size numerator denominator dice_set M)
  | Raise e =>
      exists N dice,
        1 <= Z.of_nat N <= limit
        /\ dice ∈ combinations_with_replacement dice_set N
        /\ validate_distro numerator denominator dice = Raise e
  end.
Proof.
  unfold find_dice.
  pose proof (search_spec numerator denominator dice_set
                (Z.to_nat limit) 1) as H.
  destruct (search _ _ _ _ _ _) as [solutions|e].
  - destruct H as [[-> Hall]|(N & HN & Hne & -> & Hall)].
    + left; split; [reflexivity|]; intros N HN; apply Hall; lia.
    + right; exists N; split; [lia|]; done.
  - destruct H as (N & dice & HN & Hd & E).
    exists N, dice; split; [lia|]; done.
Qed.

(** C1: the list that [find_dice] returns is empty only when no selection
    of 1 to [limit] faces of the die set yields a non-zero threshold;
    otherwise it holds exactly the solutions of the smallest size [N] that
    has one: no selection of fewer faces yields a non-zero threshold, and
    the entries are exactly the selections of [N] faces with the non-zero
    threshold each one yields, so every entry has the size [N]. When the
    call raises, [validate_distro] raised on a selection. A selection takes
    its faces at non-decreasing positions of the die set; from a die set
    in non-decreasing order the selections of [N] faces are exactly the
    non-decreasing lists of [N] of its faces. *)
Theorem find_dice_smallest_size
    p_value numerator denominator dice_set limit :
  match find_dice p_value numerator denominator dice_set limit with
  | Return solutions =>
      (solutions = []
       /\ forall N dice,
            1 <= Z.of_nat N <= limit ->
            selection dice_set N dice ->
            no_threshold numerator denominator dice)
      \/ (exists N, 1 <= Z.of_nat N <= limit
            /\ solutions <> []
            /\ (forall M dice,
                  (1 <= M < N)%nat ->
                  selection dice_set M dice ->
                  no_threshold numerator denominator dice)
            /\ (forall dice t,
                  (dice, t) ∈ solutions <->
                  selection dice_set N dice
                  /\ is_solution numerator denominator dice t)
            /\ (forall dice t, (dice, t) ∈ solutions -> length dice = N)
            /\ solutions
               = solutions_among numerator denominator
                   (combinations_with_replacement dice_set N))
  | Raise e =>
      exists N dice,
        1 <= Z.of_nat N <= limit
        /\ selection dice_set N dice
        /\ validate_distro numerator denominator dice = Raise e
  end
  /\ (StronglySorted Z.le dice_set ->
      forall N dice,
        selection dice_set N dice <->
        length dice = N
        /\ Forall (fun d => d ∈ dice_set) dice
        /\ StronglySorted Z.le dice).
Proof.
  split; [|intros Hsorted N dice; apply selection_sorted_pool, Hsorted].
  pose proof (find_dice_cases p_value numerator denominator dice_set limit)
    as H.
  destruct (find_dice _ _ _ _ _) as [solutions|e].
  - destruct H as [[-> Hall]|(N & HN & Hne & Hs & Hall)].
    + left; split; [reflexivity|]; intros N dice HN Hd.
      apply (Hall N HN), elem_of_combinations, Hd.
    + right; exists N.
      split; [exact HN|]; split; [exact Hne|].
      split; [|split; [|split; [|exact Hs]]].
      * intros M dice HM Hd.
        apply (Hall M HM), elem_of_combinations, Hd.
      * intros dice t.
        rewrite Hs, elem_of_solutions_among, elem_of_combinations.
        reflexivity.
      * intros dice t Hd; rewrite Hs in Hd.
        apply elem_of_solutions_among in Hd as [Hd _].
        eapply combinations_length, Hd.
  - destruct H as (N & dice & HN & Hd & E).
    exists N, dice; split; [exact HN|].
    split; [apply elem_of_combinations, Hd|exact E].
Qed.

Lemma find_dice_smallest_size_witness :
  exists N,
    forall dice t,
      (dice, t) ∈ [([4; 6], PyInt 10)] <->
      (length dice = N /\ Forall (fun d => d ∈ [4; 6]) dice
       /\ StronglySorted Z.le dice)
      /\ is_solution 1 24 dice t.
Proof.
  destruct (find_dice_smallest_size (S754_zero false) 1 24 [4; 6] 5)
    as [Hlist Hsel].
  assert (Hsorted : StronglySorted Z.le [4; 6])
    by (repeat constructor; lia).
  change (find_dice (S754_zero false) 1 24 [4; 6] 5)
    with (Return (A := list solution) [([4; 6], PyInt 10)]) in Hlist.
  destruct Hlist as [[Hnil _]|(N & _ & _ & _ & Hiff & _)]; [discriminate|].
  exists N; intros dice t.
  rewrite <- (Hsel Hsorted N dice); apply Hiff.
Defined.

(** The search of the specification's example, and a search that has to
    go to the second size. *)
Example find_dice_two_sided_die :
  find_dice (S754_zero false) 1 2 [2] 5 = Return [([2], PyInt 2)].
Proof. vm_compute; reflexivity. Qed.

Example find_dice_second_size :
  find_dice (S754_zero false) 1 24 [4; 6] 5 = Return [([4; 6], PyInt 10)].
Proof. vm_compute; reflexivity. Qed.

(** ** [find_dice] on the store *)

Section StoreFrame.

Variables numerator denominator : Z.

Lemma bind_return {A B} (m : Store.M A) (f : A -> Store.M B) s a s' :
  m s = (Return a, s') -> Store.bind m f s = f a s'.
Proof. unfold Store.bind; intros ->; reflexivity. Qed.

Lemma bind_raise {A B} (m : Store.M A) (f : A -> Store.M B) s e s' :
  m s = (Raise e, s') -> Store.bind m f s = (Raise e, s').
Proof. unfold Store.bind; intros ->; reflexivity. Qed.

Lemma append_run (s : gmap Store.loc Store.obj) solutions items x :
  s !! solutions = Some (Store.SolutionList items) ->
  Store.append solutions x s
  = (Return tt, <[solutions := Store.SolutionList (items ++ [x])]> s).
Proof. unfold Store.append; intros ->; reflexivity. Qed.

Lemma read_solutions_run (s : gmap Store.loc Store.obj) solutions items :
  s !! solutions = Some (Store.SolutionList items) ->
  Store.read_solutions solutions s = (Return items, s).
Proof. unfold Store.read_solutions; intros ->; reflexivity. Qed.

Lemma read_pool_run (s : gmap Store.loc Store.obj) dice_set pool :
  s !! dice_set = Some (Store.IntList pool) ->
  Store.read_pool dice_set s = (Return pool, s).
Proof. unfold Store.read_pool; intros ->; reflexivity. Qed.

Lemma try_candidates_store candidates :
  forall (s : gmap Store.loc Store.obj) solutions items,
  s !! solutions = Some (Store.SolutionList items) ->
  let r := Store.try_candidates numerator denominator candidates
             solutions s in
  frames s r.2 solutions
  /\ agrees r solutions
       (try_candidates numerator denominator candidates items).
Proof.
  induction candidates as [|dice candidates IH];
    intros s solutions items Hs r; subst r.
  - simpl; split; [intros l _; reflexivity|done].
  - cbn [Store.try_candidates try_candidates].
    destruct (validate_distro numerator denominator dice) as [t|e] eqn:Ev.
    + rewrite (bind_return _ _ s t s) by (unfold Store.lift; congruence).
      simpl; destruct (truthy t).
      * rewrite (bind_return _ _ s tt _ (append_run _ _ _ _ Hs)).
        destruct (IH (<[solutions := Store.SolutionList
                                       (items ++ [(dice, t)])]> s)
                    solutions (items ++ [(dice, t)])
                    ltac:(apply lookup_insert_eq)) as [Hf Ha].
        split; [|exact Ha].
        intros l Hl; rewrite (Hf l Hl); apply lookup_insert_ne; done.
      * rewrite (bind_return _ _ s tt s) by reflexivity.
        apply (IH s solutions items Hs).
    + rewrite (bind_raise _ _ s e s) by (unfold Store.lift; congruence).
      simpl; split; [intros l _; reflexivity|]; split; [reflexivity|eauto].
Qed.

Lemma search_store remaining :
  forall N (s : gmap Store.loc Store.obj) dice_set solutions pool items,
  dice_set <> solutions ->
  s !! dice_set = Some (Store.IntList pool) ->
  s !! solutions = Some (Store.SolutionList items) ->
  let r := Store.search numerator denominator dice_set remaining N
             solutions s in
  frames s r.2 solutions
  /\ agrees r solutions
       (search numerator denominator pool remaining N items).
Proof.
  induction remaining as [|remaining IH];
    intros N s dice_set solutions pool items Hne Hd Hs r; subst r.
  - simpl; split; [intros l _; reflexivity|done].
  - cbn [Store.search search].
    rewrite (bind_return _ _ s items s (read_solutions_run _ _ _ Hs)).
    destruct items as [|item items].
    + rewrite (bind_return _ _ s pool s (read_pool_run _ _ _ Hd)).
      destruct (try_candidates_store
                  (combinations_with_replacement pool N) s solutions []
                  Hs) as [Hf Ha].
      destruct (Store.try_candidates numerator denominator
                  (combinations_with_replacement pool N) solutions s)
        as [r s'] eqn:Er.
      simpl in Hf, Ha.
      destruct (try_candidates numerator denominator
                  (combinations_with_replacement pool N) [])
        as [items'|e]; simpl in Ha |- *.
      * destruct Ha as [-> Hs'].
        rewrite (bind_return _ _ s tt s' Er).
        assert (Hd' : s' !! dice_set = Some (Store.IntList pool))
          by (rewrite Hf; done).
        destruct (IH (S N) s' dice_set solutions pool items' Hne Hd' Hs')
          as [Hf' Ha'].
        split; [|exact Ha'].
        intros l Hl; rewrite (Hf' l Hl); apply Hf, Hl.
      * destruct Ha as [-> Hs'].
        rewrite (bind_raise _ _ s e s' Er).
        simpl; split; [exact Hf|done].
    + simpl; split; [intros l _; reflexivity|done].
Qed.

Lemma find_dice_store p_value (s : gmap Store.loc Store.obj) dice_set pool
    limit :
  s !! dice_set = Some (Store.IntList pool) ->
  let r := Store.find_dice p_value numerator denominator dice_set limit s in
  (forall l o, s !! l = Some o -> r.2 !! l = Some o)
  /\ Store.outcome r = find_dice p_value numerator denominator pool limit.
Proof.
  intros Hd r; subst r; unfold Store.find_dice, find_dice.
  set (solutions := fresh (dom s)).
  set (s0 := <[solutions := Store.SolutionList []]> s).
  rewrite (bind_return _ _ s solutions s0) by reflexivity.
  assert (Hfresh : s !! solutions = None)
    by (apply not_elem_of_dom, is_fresh).
  assert (Hne : dice_set <> solutions) by congruence.
  assert (Hd0 : s0 !! dice_set = Some (Store.IntList pool))
    by (unfold s0; rewrite lookup_insert_ne; done).
  assert (Hs0 : s0 !! solutions = Some (Store.SolutionList []))
    by apply lookup_insert_eq.
  destruct (search_store (Z.to_nat limit) 1 s0 dice_set solutions pool []
              Hne Hd0 Hs0) as [Hf Ha].
  destruct (Store.search numerator denominator dice_set (Z.to_nat limit) 1
              solutions s0) as [r s'] eqn:Er.
  simpl in Hf, Ha.
  assert (Hold : forall l o, s !! l = Some o -> s' !! l = Some o).
  { intros l o Hl.
    assert (l <> solutions) by congruence.
    rewrite Hf by done; unfold s0; rewrite lookup_insert_ne; done. }
  destruct (search numerator denominator pool (Z.to_nat limit) 1 [])
    as [items|e]; simpl in Ha.
  - destruct Ha as [-> Hs'].
    rewrite (bind_return _ _ s0 tt s' Er).
    simpl; rewrite Hs'; done.
  - destruct Ha as [-> _].
    rewrite (bind_raise _ _ s0 e s' Er); simpl; done.
Qed.

End StoreFrame.

(** C10: a call of [find_dice] leaves the list object it is given as
    [dice_set] as it was, as it does every object that existed before the
    call; what it returns is what [find_dice] computes from the items of
    that object; and a second call therefore finds the same faces and
    gives the same result. This holds for any reference, the module-level
    [RPG_DICE_SET] among them. *)
Theorem find_dice_leaves_dice_set_unchanged
    p_value numerator denominator limit
    (s : gmap Store.loc Store.obj) dice_set pool :
  s !! dice_set = Some (Store.IntList pool) ->
  let first := Store.find_dice p_value numerator denominator dice_set limit s in
  let second :=
    Store.find_dice p_value numerator denominator dice_set limit first.2 in
  first.2 !! dice_set = Some (Store.IntList pool)
  /\ (forall l o, s !! l = Some o -> first.2 !! l = Some o)
  /\ second.2 !! dice_set = Some (Store.IntList pool)
  /\ Store.outcome first
     = find_dice p_value numerator denominator pool limit
  /\ Store.outcome second = Store.outcome first.
Proof.
  intros Hd first second.
  destruct (find_dice_store numerator denominator p_value s dice_set pool
              limit Hd) as [Hf1 Ho1].
  fold first in Hf1, Ho1.
  pose proof (Hf1 _ _ Hd) as Hd1.
  destruct (find_dice_store numerator denominator p_value first.2 dice_set
              pool limit Hd1) as [Hf2 Ho2].
  fold second in Hf2, Ho2.
  split; [exact Hd1|]; split; [exact Hf1|]; split; [exact (Hf2 _ _ Hd1)|].
  split; [exact Ho1|]; congruence.
Qed.

Lemma find_dice_leaves_dice_set_unchanged_witness :
  let first :=
    Store.find_dice_default (S754_zero false) 1 4 3 Store.module_store in
  let second :=
    Store.find_dice_default (S754_zero false) 1 4 3 first.2 in
  first.2 !! Store.RPG_DICE_SET_ref = Some (Store.IntList RPG_DICE_SET)
  /\ (forall l o, Store.module_store !! l = Some o -> first.2 !! l = Some o)
  /\ second.2 !! Store.RPG_DICE_SET_ref = Some (Store.IntList RPG_DICE_SET)
  /\ Store.outcome first = find_dice (S754_zero false) 1 4 RPG_DICE_SET 3
  /\ Store.outcome second = Store.outcome first.
Proof.
  apply (find_dice_leaves_dice_set_unchanged (S754_zero false) 1 4 3
           Store.module_store Store.RPG_DICE_SET_ref RPG_DICE_SET).
  reflexivity.
Defined.

(** * Further properties *)

(** ** The distribution that [validate_distro] scans *)

Section DistributionContents.

Lemma fold_count_lookup l : forall (c : gmap Z Z) k,
  default 0 (fold_left count_one l c !! k)
  = default 0 (c !! k) + count_where (Z.eqb k) l.
Proof.
  induction l as [|x l IH]; intros c k; simpl.
  - unfold count_where; simpl; lia.
  - rewrite IH, count_one_lookup, count_where_cons.
    destruct (decide (x = k)) as [->|Hne].
    + rewrite Z.eqb_refl; simpl; lia.
    + destruct (Z.eqb_spec k x); [congruence|lia].
Qed.

Lemma Counter_lookup l k :
  default 0 (Counter l !! k) = count_where (Z.eqb k) l.
Proof. unfold Counter; rewrite fold_count_lookup, lookup_empty; reflexivity. Qed.

Lemma count_where_positive {A} (P : A -> bool) l :
  0 < count_where P l -> exists x, x ∈ l /\ P x = true.
Proof.
  induction l as [|x l IH]; [unfold count_where; simpl; lia|].
  rewrite count_where_cons; destruct (P x) eqn:E.
  - intros _; exists x; split; [left|exact E].
  - intros H; destruct IH as (y & Hy & HP); [lia|].
    exists y; split; [right; exact Hy|exact HP].
Qed.

Lemma strictly_descending (items : list (Z * Z)) :
  StronglySorted item_ge items ->
  NoDup items.*1 ->
  StronglySorted (fun a b => a.1 > b.1) items.
Proof.
  induction 1 as [|item items Hs IH Hall]; intros Hn; [constructor|].
  rewrite fmap_cons in Hn; apply NoDup_cons in Hn as [Hnotin Hn].
  constructor; [apply IH, Hn|].
  apply Forall_forall; intros other Hin.
  rewrite Forall_forall in Hall; specialize (Hall other Hin).
  assert (item.1 <> other.1).
  { intros E; apply Hnotin; rewrite E.
    apply list_elem_of_fmap; exists other; done. }
  unfold item_ge in Hall; lia.
Qed.

End DistributionContents.

Lemma distro_counts_the_outcomes_aux (dice : list Z) (k v : Z) :
  (k, v) ∈ distro_of dice <-> v = outcomes_with_sum k dice /\ 0 < v.
Proof.
  assert (Hc : default 0 (Counter (Py.sum <$> rolls_of dice) !! k)
               = outcomes_with_sum k dice).
  { rewrite Counter_lookup, count_where_fmap; unfold outcomes_with_sum.
    f_equal. }
  split.
  - intros Hin; split; [|eapply distro_count_positive, Hin].
    apply elem_of_distro in Hin; rewrite Hin in Hc; exact Hc.
  - intros [-> Hpos]; unfold outcomes_with_sum in Hpos.
    apply count_where_positive in Hpos as (roll & Hr & Hk).
    apply Z.eqb_eq in Hk; subst k.
    destruct (sum_is_distro_key dice roll Hr) as [v Hv].
    pose proof Hv as Hv'; apply elem_of_distro in Hv'.
    rewrite Hv' in Hc; simpl in Hc; rewrite <- Hc; exact Hv.
Qed.

(** The distribution holds exactly the sums that some outcome tuple has,
    each with the number of tuples that have it. *)
Theorem distro_counts_the_outcomes (dice : list Z) (k v : Z) :
  (k, v) ∈ distro_of dice <-> v = outcomes_with_sum k dice /\ 0 < v.
Proof. apply distro_counts_the_outcomes_aux. Qed.

(** With no negative face count, the counts of the distribution add up to
    [num_cases], the product of the face counts; and every key lies between
    the number of dice and the sum of the face counts. *)
Theorem distro_total_and_key_range (dice : list Z) :
  Forall (fun d => 0 <= d) dice ->
  total_count (distro_of dice) = num_cases_of dice
  /\ forall k v, (k, v) ∈ distro_of dice ->
       Z.of_nat (length dice) <= k <= Py.sum dice.
Proof.
  intros Hd; split.
  - rewrite distro_total, num_cases_of_foldr by exact Hd; reflexivity.
  - intros k v; apply distro_key_range.
Qed.

Lemma distro_total_and_key_range_witness :
  total_count (distro_of [6; 6]) = num_cases_of [6; 6]
  /\ forall k v, (k, v) ∈ distro_of [6; 6] ->
       Z.of_nat (length [6; 6]) <= k <= Py.sum [6; 6].
Proof.
  apply (distro_total_and_key_range [6; 6]).
  repeat constructor; lia.
Defined.

(** The scan meets the sums from the largest down, each sum once. *)
Theorem distro_strictly_descending (dice : list Z) :
  StronglySorted (fun a b => a.1 > b.1) (distro_of dice).
Proof.
  apply strictly_descending; [apply distro_sorted|apply distro_NoDup].
Qed.

(** ** What [validate_distro] hands back *)

Section ValidateDistro.

Lemma int_reach_mono z z' f :
  z < z' ->
  Py.int_eq_float z f = true \/ Py.int_gt_float z f = true ->
  Py.int_gt_float z' f = true.
Proof.
  intros Hlt; unfold Py.int_eq_float, Py.int_gt_float, Py.int_compare_float.
  destruct f as [s|s| |s m e].
  - destruct (Z.compare_spec z 0), (Z.compare_spec z' 0);
      intros [Hr|Hr]; try discriminate; try reflexivity; lia.
  - destruct s; intros [Hr|Hr]; try discriminate; reflexivity.
  - intros [Hr|Hr]; discriminate.
  - generalize (if s then Z.neg m else Z.pos m); intros v.
    destruct (Z.leb_spec 0 e).
    + generalize (v * 2 ^ e); intros c.
      destruct (Z.compare_spec z c), (Z.compare_spec z' c);
        intros [Hr|Hr]; try discriminate; try reflexivity; lia.
    + assert (Hp : 0 < 2 ^ (- e)) by (apply Z.pow_pos_nonneg; lia).
      destruct (Z.compare_spec (z * 2 ^ (- e)) v),
        (Z.compare_spec (z' * 2 ^ (- e)) v);
        intros [Hr|Hr]; try discriminate; try reflexivity; nia.
Qed.

(** The scan falls off the end exactly when the whole of the counts stays
    below the target. *)
Lemma scan_none_iff target distro : forall cum,
  Forall (fun item => 0 < item.2) distro ->
  scan target cum distro = PyNone <->
  distro = [] \/ below_float (cum + total_count distro) target.
Proof.
  unfold below_float.
  induction distro as [|[k v] distro IH]; intros cum Hpos.
  - simpl; split; [left; reflexivity|reflexivity].
  - apply Forall_cons in Hpos as [Hv Hpos]; simpl in Hv.
    rewrite total_count_cons; cbn [scan].
    specialize (IH (cum + v) Hpos).
    replace (cum + (v + total_count distro))
      with (cum + v + total_count distro) by lia.
    destruct (Py.int_eq_float (cum + v) target) eqn:Eeq.
    + split; [discriminate|].
      intros [H|[H1 H2]]; [discriminate|].
      destruct distro as [|item distro].
      * unfold total_count in H1; simpl in H1.
        rewrite Z.add_0_r in H1; congruence.
      * assert (0 < total_count (item :: distro))
          by (apply total_count_positive; done).
        rewrite (int_reach_mono (cum + v) _ target) in H2 by (lia || tauto).
        discriminate.
    + destruct (Py.int_gt_float (cum + v) target) eqn:Egt.
      * split; [discriminate|].
        intros [H|[H1 H2]]; [discriminate|].
        destruct distro as [|item distro].
        -- unfold total_count in H2; simpl in H2.
           rewrite Z.add_0_r in H2; congruence.
        -- assert (0 < total_count (item :: distro))
             by (apply total_count_positive; done).
           rewrite (int_reach_mono (cum + v) _ target) in H2
             by (lia || tauto).
           discriminate.
      * rewrite IH; split.
        -- intros [->|H]; right; [|exact H].
           unfold total_count; simpl; rewrite Z.add_0_r; done.
        -- intros [H|H]; [discriminate|].
           destruct distro; [left; reflexivity|right; exact H].
Qed.

Lemma distro_nonempty dice :
  Forall (fun d => 1 <= d) dice -> distro_of dice <> [].
Proof.
  intros Hd E; destruct (distro_last_key dice Hd) as [v Hl].
  rewrite E in Hl; discriminate.
Qed.

Lemma rolls_nonpositive_face dice d :
  d ∈ dice -> d <= 0 -> rolls_of dice = [].
Proof.
  intros Hin Hd; apply elem_of_nil_inv; intros roll Hr.
  apply elem_of_rolls in Hr.
  induction Hr as [|x d' roll dice Hx Hr IH]; [inversion Hin|].
  apply elem_of_cons in Hin as [->|Hin]; [lia|exact (IH Hin)].
Qed.

End ValidateDistro.

(** A non-zero result is a sum that some outcome tuple has, within the range
    of the dice, at which the number of outcome tuples with at least that
    sum equals the float [target_cases]; the product of the faces is then a
    multiple of the denominator. *)
Theorem nonzero_threshold_splits_the_outcomes
    (numerator denominator : Z) (dice : list Z) (t : Z) :
  validate_distro numerator denominator dice = Return (PyInt t) ->
  t <> 0 ->
  Z.of_nat (length dice) <= t <= Py.sum dice
  /\ 0 < outcomes_with_sum t dice
  /\ num_cases_of dice mod denominator = 0
  /\ exists target_cases,
       target_cases_of numerator denominator (num_cases_of dice)
       = Return target_cases
       /\ Py.int_compare_float (outcomes_at_least t dice) target_cases
          = Some Eq.
Proof.
  intros Hv Ht.
  destruct (validate_distro_threshold _ _ _ _ Hv Ht)
    as (Hrange & Hm & target & E & Heq).
  split; [exact Hrange|]; split.
  - apply validate_distro_inv in Hv
      as (_ & [[_ [= ->]]|(_ & target' & _ & Hs)]); [done|].
    symmetry in Hs; apply scan_found in Hs as (before & v & after & Hd & _);
      [|exact Ht].
    assert (Hin : (t, v) ∈ distro_of dice).
    { rewrite Hd; apply elem_of_app; right; left. }
    apply distro_counts_the_outcomes_aux in Hin as [<- Hpos]; exact Hpos.
  - split; [exact Hm|]; exists target; split; [exact E|].
    unfold Py.int_eq_float in Heq.
    destruct (Py.int_compare_float _ _) as [[]|]; done.
Qed.

Lemma nonzero_threshold_splits_the_outcomes_witness :
  Z.of_nat (length [6; 6]) <= 10 <= Py.sum [6; 6]
  /\ 0 < outcomes_with_sum 10 [6; 6]
  /\ num_cases_of [6; 6] mod 6 = 0
  /\ exists target_cases,
       target_cases_of 1 6 (num_cases_of [6; 6]) = Return target_cases
       /\ Py.int_compare_float (outcomes_at_least 10 [6; 6]) target_cases
          = Some Eq.
Proof.
  apply (nonzero_threshold_splits_the_outcomes 1 6 [6; 6] 10).
  - vm_compute; reflexivity.
  - lia.
Defined.

(** What [validate_distro] decides before it enumerates any outcome: it
    raises [ZeroDivisionError] exactly when the denominator is 0; with
    another denominator that does not divide the product of the faces it
    returns 0; with one that divides it and a target count too large for
    a float it raises [OverflowError]. *)
Theorem validate_distro_before_the_enumeration
    (numerator denominator : Z) (dice : list Z) :
  (validate_distro numerator denominator dice = Raise ZeroDivisionError <->
   denominator = 0)
  /\ (denominator <> 0 ->
      num_cases_of dice mod denominator <> 0 ->
      validate_distro numerator denominator dice = Return (PyInt 0))
  /\ (denominator <> 0 ->
      num_cases_of dice mod denominator = 0 ->
      Py.true_div_overflows (numerator * num_cases_of dice) denominator
      = true ->
      validate_distro numerator denominator dice = Raise OverflowError).
Proof.
  split; [|split; [apply validate_distro_not_divisible|]].
  - unfold validate_distro, Py.mod_, target_cases_of, Py.truediv.
    destruct (Z.eqb_spec denominator 0) as [Hz|Hnz]; simpl; [done|].
    destruct (negb _); simpl; [done|].
    destruct (Py.true_div_overflows _ _); simpl; done.
  - intros Hnz Hm Ho.
    unfold validate_distro, Py.mod_, target_cases_of, Py.truediv.
    destruct (Z.eqb_spec denominator 0); [done|]; simpl.
    rewrite Hm, Ho; reflexivity.
Qed.

Lemma validate_distro_before_the_enumeration_witness :
  validate_distro 1 4 [6] = Return (PyInt 0).
Proof.
  destruct (validate_distro_before_the_enumeration 1 4 [6])
    as (_ & Hzero & _).
  apply Hzero; [lia|vm_compute; discriminate].
Defined.

Lemma validate_distro_none_iff_aux
    (numerator denominator : Z) (dice : list Z) :
  Forall (fun d => 1 <= d) dice ->
  validate_distro numerator denominator dice = Return PyNone <->
  denominator <> 0
  /\ num_cases_of dice mod denominator = 0
  /\ exists target_cases,
       target_cases_of numerator denominator (num_cases_of dice)
       = Return target_cases
       /\ below_float (num_cases_of dice) target_cases.
Proof.
  intros Hd.
  assert (Hd0 : Forall (fun d => 0 <= d) dice)
    by (eapply Forall_impl; [exact Hd|]; simpl; lia).
  assert (Hpos : Forall (fun item => 0 < item.2) (distro_of dice)).
  { apply Forall_forall; intros [k w] Hk; simpl.
    eapply distro_count_positive, Hk. }
  assert (Htot : 0 + total_count (distro_of dice) = num_cases_of dice).
  { rewrite distro_total, num_cases_of_foldr by exact Hd0; lia. }
  split.
  - intros Hv; apply validate_distro_inv in Hv
      as (Hnz & [[_ [=]]|(Hm & target & E & Hs)]).
    split; [exact Hnz|]; split; [exact Hm|]; exists target.
    split; [exact E|].
    symmetry in Hs.
    apply (scan_none_iff target (distro_of dice) 0 Hpos) in Hs as [Hs|Hs].
    + destruct (distro_nonempty dice Hd Hs).
    + rewrite Htot in Hs; exact Hs.
  - intros (Hnz & Hm & target & E & Hb).
    rewrite (validate_distro_divisible _ _ _ target) by assumption.
    f_equal; apply scan_none_iff; [exact Hpos|].
    right; rewrite Htot; exact Hb.
Qed.





(** A die with a face count of 0 or less leaves no outcome tuple at all,
    and the result is never a non-zero threshold. *)
Theorem nonpositive_face_gives_no_threshold
    (numerator denominator : Z) (dice : list Z) (d : Z) (v : threshold_value) :
  d ∈ dice -> d <= 0 ->
  validate_distro numerator denominator dice = Return v ->
  rolls_of dice = [] /\ (v = PyInt 0 \/ v = PyNone).
Proof.
  intros Hin Hd Hv.
  pose proof (rolls_nonpositive_face dice d Hin Hd) as Hr.
  split; [exact Hr|].
  apply validate_distro_inv in Hv as (_ & [[_ ->]|(_ & target & _ & ->)]);
    [left; reflexivity|right].
  unfold distro_of; rewrite Hr; reflexivity.
Qed.

Lemma nonpositive_face_gives_no_threshold_witness :
  rolls_of [6; 0] = [] /\ (PyNone = PyInt 0 \/ PyNone = PyNone).
Proof.
  apply (nonpositive_face_gives_no_threshold 1 2 [6; 0] 0 PyNone).
  - right; left.
  - lia.
  - vm_compute; reflexivity.
Defined.

(** ** The order of the dice *)

Section OrderOfDice.

Lemma count_one_comm (c : gmap Z Z) x y :
  count_one (count_one c x) y = count_one (count_one c y) x.
Proof.
  destruct (decide (x = y)) as [->|Hne]; [reflexivity|].
  apply map_eq; intros k; rewrite !count_one_lookup.
  repeat case_decide; subst; congruence.
Qed.

Lemma Counter_permutation l l' : l ≡ₚ l' -> Counter l = Counter l'.
Proof.
  unfold Counter; generalize (∅ : gmap Z Z).
  intros c H; revert c.
  induction H as [|x l l' H IH|x y l|l l' l'' H1 IH1 H2 IH2]; intros c; simpl.
  - reflexivity.
  - apply IH.
  - rewrite count_one_comm; reflexivity.
  - rewrite IH1; apply IH2.
Qed.

Lemma fmap_bind {A B C} (f : B -> C) (g : A -> list B) (l : list A) :
  f <$> (l ≫= g) = l ≫= fun x => f <$> g x.
Proof.
  induction l as [|x l IH]; [reflexivity|].
  rewrite !bind_cons, fmap_app, IH; reflexivity.
Qed.

Lemma bind_pointwise_permutation {A B} (f g : A -> list B) (l : list A) :
  (forall x, f x ≡ₚ g x) -> l ≫= f ≡ₚ l ≫= g.
Proof.
  intros H; induction l as [|x l IH]; [reflexivity|].
  rewrite !bind_cons, IH, (H x); reflexivity.
Qed.

Lemma bind_app_permutation {A B} (g h : A -> list B) (l : list A) :
  (l ≫= fun y => g y ++ h y) ≡ₚ (l ≫= g) ++ (l ≫= h).
Proof.
  induction l as [|x l IH]; [reflexivity|].
  rewrite !bind_cons, IH.
  rewrite <- !(assoc_L (++)); f_equiv.
  rewrite !(assoc_L (++)); f_equiv.
  apply Permutation_app_comm.
Qed.

Lemma bind_exchange {A B C} (F : A -> B -> list C) (l1 : list A)
    (l2 : list B) :
  (l1 ≫= fun a => l2 ≫= F a) ≡ₚ (l2 ≫= fun b => l1 ≫= fun a => F a b).
Proof.
  induction l1 as [|a l1 IH].
  - induction l2 as [|b l2 IH]; [reflexivity|].
    rewrite bind_cons; exact IH.
  - rewrite bind_cons, IH.
    rewrite <- (bind_app_permutation (F a) (fun b => l1 ≫= fun a' => F a' b)).
    reflexivity.
Qed.

Lemma sums_of_rolls_cons d dice :
  Py.sum <$> rolls_of (d :: dice)
  = Py.range 1 (d + 1) ≫= fun x => Z.add x <$> (Py.sum <$> rolls_of dice).
Proof.
  unfold rolls_of; rewrite fmap_cons, product_cons, fmap_bind.
  apply list_bind_ext; [|reflexivity]; intros x.
  rewrite <- !list_fmap_compose; reflexivity.
Qed.

Lemma sums_of_rolls_permutation dice dice' :
  dice ≡ₚ dice' -> Py.sum <$> rolls_of dice ≡ₚ Py.sum <$> rolls_of dice'.
Proof.
  induction 1 as [|d dice dice' H IH|d d' dice|dice1 dice2 dice3 H1 IH1 H2 IH2].
  - reflexivity.
  - rewrite !sums_of_rolls_cons.
    apply bind_pointwise_permutation; intros x; rewrite IH; reflexivity.
  - rewrite !sums_of_rolls_cons.
    set (sums := Py.sum <$> rolls_of dice).
    etrans; [|etrans; [apply (bind_exchange
                        (fun a b => (fun s => a + (b + s)) <$> sums))|]].
    + apply bind_pointwise_permutation; intros a.
      rewrite fmap_bind.
      apply bind_pointwise_permutation; intros b.
      rewrite <- list_fmap_compose; reflexivity.
    + apply bind_pointwise_permutation; intros b.
      rewrite fmap_bind.
      apply bind_pointwise_permutation; intros a.
      rewrite <- list_fmap_compose.
      erewrite list_fmap_ext; [reflexivity|]; intros s; simpl; lia.
  - etrans; eassumption.
Qed.

Lemma faces_product_permutation dice dice' :
  dice ≡ₚ dice' -> faces_product dice = faces_product dice'.
Proof.
  unfold faces_product.
  induction 1 as [|d dice dice' H IH|d d' dice|dice1 dice2 dice3 H1 IH1 H2 IH2];
    simpl; try congruence; lia.
Qed.

End OrderOfDice.

(** The result does not depend on the order in which the dice are given:
    reordering them changes neither [num_cases] nor the distribution. *)
Theorem validate_distro_any_order
    (numerator denominator : Z) (dice dice' : list Z) :
  dice ≡ₚ dice' ->
  distro_of dice = distro_of dice'
  /\ validate_distro numerator denominator dice
     = validate_distro numerator denominator dice'.
Proof.
  intros H.
  assert (Hd : distro_of dice = distro_of dice').
  { unfold distro_of.
    rewrite (Counter_permutation _ _ (sums_of_rolls_permutation _ _ H)).
    reflexivity. }
  split; [exact Hd|].
  unfold validate_distro.
  rewrite !num_cases_of_foldr, (faces_product_permutation _ _ H), Hd.
  reflexivity.
Qed.

Lemma validate_distro_any_order_witness :
  distro_of [4; 6] = distro_of [6; 4]
  /\ validate_distro 1 24 [4; 6] = validate_distro 1 24 [6; 4].
Proof.
  apply (validate_distro_any_order 1 24 [4; 6] [6; 4]).
  apply perm_swap.
Defined.

(** ** What [find_dice] hands back *)

Section Search.

Variables numerator denominator : Z.
Variable dice_set : list Z.

Lemma truthy_inv t : truthy t = true -> exists z, t = PyInt z /\ z <> 0.
Proof.
  destruct t as [z|]; simpl; [|discriminate].
  destruct (Z.eqb_spec z 0); [discriminate|]; eauto.
Qed.

Lemma search_found remaining N (solutions : list solution) :
  solutions <> [] ->
  search numerator denominator dice_set remaining N solutions
  = Return solutions.
Proof. destruct remaining, solutions; done. Qed.

(** Whatever the loop ends with, other than the empty list, it ends with
    the same when it is allowed more sizes. *)
Lemma search_more remaining extra : forall N r,
  search numerator denominator dice_set remaining N [] = r ->
  r <> Return [] ->
  search numerator denominator dice_set (remaining + extra) N [] = r.
Proof.
  induction remaining as [|remaining IH]; intros N r Hs Hr.
  - simpl in Hs; congruence.
  - cbn [search Nat.add] in Hs |- *.
    destruct (try_candidates numerator denominator
                (combinations_with_replacement dice_set N) [])
      as [[|s solutions']|e]; simpl in Hs |- *.
    + apply IH; assumption.
    + rewrite search_found in Hs |- * by done; exact Hs.
    + exact Hs.
Qed.

Lemma combinations_nil_pool r : combinations_with_replacement [] (S r) = [].
Proof. reflexivity. Qed.

Lemma search_empty_pool remaining : forall N,
  search numerator denominator [] remaining (S N) [] = Return [].
Proof.
  induction remaining as [|remaining IH]; intros N; [reflexivity|].
  cbn [search]; rewrite combinations_nil_pool; simpl; apply IH.
Qed.

Lemma combinations_cons_S x pool r :
  combinations_with_replacement (x :: pool) (S r)
  = (cons x <$> combinations_with_replacement (x :: pool) r)
    ++ combinations_with_replacement pool (S r).
Proof. reflexivity. Qed.

Lemma combinations_NoDup r : forall pool,
  NoDup pool -> NoDup (combinations_with_replacement pool r).
Proof.
  induction r as [|r IHr]; intros pool Hp.
  - simpl; apply NoDup_singleton.
  - induction pool as [|x pool IHp]; [constructor|].
    rewrite combinations_cons_S; apply NoDup_app.
    pose proof Hp as Hp'; apply NoDup_cons in Hp' as [Hx Hp'].
    split; [|split].
    + apply NoDup_fmap_2; [|apply IHr, Hp].
      intros c1 c2 [= ->]; reflexivity.
    + intros c Hc Hc'.
      apply list_elem_of_fmap in Hc as (c0 & -> & _).
      apply combinations_from_pool in Hc'.
      apply Forall_cons in Hc' as [Hin _]; done.
    + apply IHp, Hp'.
Qed.

Lemma solutions_among_NoDup candidates :
  NoDup candidates ->
  NoDup (solutions_among numerator denominator candidates).*1.
Proof.
  induction 1 as [|dice candidates Hnotin Hn IH]; [constructor|].
  rewrite solutions_among_cons.
  destruct (validate_distro numerator denominator dice) as [t|e];
    [destruct (truthy t)|]; try exact IH.
  rewrite fmap_cons; constructor; [|exact IH].
  intros Hin; apply list_elem_of_fmap in Hin as ([dice' t'] & E & Hin).
  simpl in E; subst dice'.
  apply elem_of_solutions_among in Hin as [Hin _]; done.
Qed.

End Search.

(** Every entry of the returned list is a combination of faces of the die
    set with a non-zero integer threshold that [validate_distro] verified:
    the threshold is a sum within the range of the combination, and the
    number of outcome tuples with at least that sum equals the float
    [target_cases]. *)
Theorem find_dice_solutions_are_verified
    p_value numerator denominator dice_set limit solutions dice t :
  find_dice p_value numerator denominator dice_set limit = Return solutions ->
  (dice, t) ∈ solutions ->
  Forall (fun d => d ∈ dice_set) dice
  /\ exists z,
       t = PyInt z /\ z <> 0
       /\ Z.of_nat (length dice) <= z <= Py.sum dice
       /\ exists target_cases,
            target_cases_of numerator denominator (num_cases_of dice)
            = Return target_cases
            /\ Py.int_eq_float (outcomes_at_least z dice) target_cases = true.
Proof.
  intros Hf Hin.
  pose proof (find_dice_cases p_value numerator denominator dice_set limit)
    as H; rewrite Hf in H.
  destruct H as [[-> _]|(N & _ & _ & -> & _)]; [inversion Hin|].
  apply elem_of_solutions_among in Hin as (Hc & Hv & Ht).
  split; [eapply combinations_from_pool, Hc|].
  apply truthy_inv in Ht as (z & -> & Hz); exists z.
  split; [reflexivity|]; split; [exact Hz|].
  destruct (validate_distro_threshold _ _ _ _ Hv Hz)
    as (Hrange & _ & target & E & Heq).
  split; [exact Hrange|]; eauto.
Qed.

Lemma find_dice_solutions_are_verified_witness :
  Forall (fun d => d ∈ [2]) [2]
  /\ exists z,
       PyInt 2 = PyInt z /\ z <> 0
       /\ Z.of_nat (length [2]) <= z <= Py.sum [2]
       /\ exists target_cases,
            target_cases_of 1 2 (num_cases_of [2]) = Return target_cases
            /\ Py.int_eq_float (outcomes_at_least z [2]) target_cases = true.
Proof.
  apply (find_dice_solutions_are_verified (S754_zero false) 1 2 [2] 5
           [([2], PyInt 2)] [2] (PyInt 2)).
  - vm_compute; reflexivity.
  - left.
Defined.

(** With an empty die set, or a limit below 1, there is nothing to try: the
    result is the empty list and [validate_distro] is never called, so not
    even a zero denominator raises. *)
Theorem find_dice_nothing_to_try
    p_value numerator denominator dice_set limit :
  dice_set = [] \/ limit < 1 ->
  find_dice p_value numerator denominator dice_set limit = Return [].
Proof.
  unfold find_dice; intros [->|Hl].
  - apply search_empty_pool.
  - replace (Z.to_nat limit) with 0%nat by lia; reflexivity.
Qed.

Lemma find_dice_nothing_to_try_witness :
  find_dice (S754_zero false) 1 0 [] 20 = Return [].
Proof.
  apply (find_dice_nothing_to_try (S754_zero false) 1 0 [] 20).
  left; reflexivity.
Defined.

(** With a denominator of 0, a die set that is not empty and a limit of at
    least 1, the first candidate already raises [ZeroDivisionError]. *)
Theorem find_dice_zero_denominator p_value numerator dice_set limit :
  dice_set <> [] -> 1 <= limit ->
  find_dice p_value numerator 0 dice_set limit = Raise ZeroDivisionError.
Proof.
  intros Hne Hl; unfold find_dice.
  destruct dice_set as [|x pool]; [done|].
  destruct (Z.to_nat limit) as [|remaining] eqn:E; [lia|].
  cbn [search]; rewrite combinations_cons_S.
  reflexivity.
Qed.

Lemma find_dice_zero_denominator_witness :
  find_dice (S754_zero false) 1 0 RPG_DICE_SET 20 = Raise ZeroDivisionError.
Proof.
  apply (find_dice_zero_denominator (S754_zero false) 1 RPG_DICE_SET 20).
  - discriminate.
  - lia.
Defined.

(** Raising the limit never changes an answer: a result other than the
    empty list, be it a list of solutions or an exception, is the result
    for every larger limit too. *)
Theorem find_dice_larger_limit
    p_value numerator denominator dice_set limit limit' r :
  find_dice p_value numerator denominator dice_set limit = r ->
  r <> Return [] ->
  limit <= limit' ->
  find_dice p_value numerator denominator dice_set limit' = r.
Proof.
  unfold find_dice; intros Hf Hr Hl.
  replace (Z.to_nat limit')
    with (Z.to_nat limit + (Z.to_nat limit' - Z.to_nat limit))%nat by lia.
  apply search_more; assumption.
Qed.

Lemma find_dice_larger_limit_witness :
  find_dice (S754_zero false) 1 24 [4; 6] 20 = Return [([4; 6], PyInt 10)].
Proof.
  apply (find_dice_larger_limit (S754_zero false) 1 24 [4; 6] 2 20).
  - vm_compute; reflexivity.
  - discriminate.
  - lia.
Defined.

(** From a die set without repeated faces, no combination is reported
    twice. *)
Theorem find_dice_reports_each_combination_once
    p_value numerator denominator dice_set limit solutions :
  NoDup dice_set ->
  find_dice p_value numerator denominator dice_set limit = Return solutions ->
  NoDup solutions.*1.
Proof.
  intros Hn Hf.
  pose proof (find_dice_cases p_value numerator denominator dice_set limit)
    as H; rewrite Hf in H.
  destruct H as [[-> _]|(N & _ & _ & -> & _)]; [constructor|].
  apply solutions_among_NoDup, combinations_NoDup, Hn.
Qed.

Lemma find_dice_reports_each_combination_once_witness :
  NoDup [([4], PyInt 4); ([8], PyInt 7); ([12], PyInt 10);
         ([20], PyInt 16)].*1.
Proof.
  apply (find_dice_reports_each_combination_once (S754_zero false) 1 4
           RPG_DICE_SET 3).
  - apply (bool_decide_unpack (NoDup RPG_DICE_SET)); vm_compute; exact I.
  - vm_compute; reflexivity.
Defined.

(** ** The list object that [find_dice] hands back *)

Section StoreResult.

Variables numerator denominator : Z.

Lemma find_dice_store_object p_value (s : gmap Store.loc Store.obj)
    dice_set pool limit l :
  s !! dice_set = Some (Store.IntList pool) ->
  let r := Store.find_dice p_value numerator denominator dice_set limit s in
  r.1 = Return l ->
  l = fresh (dom s)
  /\ exists items, r.2 !! l = Some (Store.SolutionList items).
Proof.
  intros Hd r; subst r; unfold Store.find_dice.
  set (solutions := fresh (dom s)).
  set (s0 := <[solutions := Store.SolutionList []]> s).
  rewrite (bind_return _ _ s solutions s0) by reflexivity.
  assert (Hfresh : s !! solutions = None)
    by (apply not_elem_of_dom, is_fresh).
  assert (Hne : dice_set <> solutions) by congruence.
  assert (Hd0 : s0 !! dice_set = Some (Store.IntList pool))
    by (unfold s0; rewrite lookup_insert_ne; done).
  assert (Hs0 : s0 !! solutions = Some (Store.SolutionList []))
    by apply lookup_insert_eq.
  destruct (search_store numerator denominator (Z.to_nat limit) 1 s0
              dice_set solutions pool [] Hne Hd0 Hs0) as [_ Ha].
  destruct (Store.search numerator denominator dice_set (Z.to_nat limit) 1
              solutions s0) as [r s'] eqn:Er.
  simpl in Ha.
  destruct (search numerator denominator pool (Z.to_nat limit) 1 [])
    as [items|e]; simpl in Ha.
  - destruct Ha as [-> Hs'].
    rewrite (bind_return _ _ s0 tt s' Er); simpl.
    intros [= <-]; split; [reflexivity|eauto].
  - destruct Ha as [-> _].
    rewrite (bind_raise _ _ s0 e s' Er); simpl; discriminate.
Qed.

End StoreResult.

(** The list that a call returns is a new object: its reference was not in
    use before the call, a second call returns a different object, and the
    second call leaves the list of the first as it was. *)
Theorem find_dice_returns_a_new_object
    p_value numerator denominator limit
    (s : gmap Store.loc Store.obj) dice_set pool l1 l2 :
  s !! dice_set = Some (Store.IntList pool) ->
  let first := Store.find_dice p_value numerator denominator dice_set limit s in
  let second :=
    Store.find_dice p_value numerator denominator dice_set limit first.2 in
  first.1 = Return l1 ->
  second.1 = Return l2 ->
  s !! l1 = None /\ l1 <> l2 /\ second.2 !! l1 = first.2 !! l1.
Proof.
  intros Hd first second H1 H2.
  destruct (find_dice_store_object numerator denominator p_value s dice_set
              pool limit l1 Hd H1) as [E1 [items1 Hi1]].
  fold first in Hi1.
  destruct (find_dice_store numerator denominator p_value s dice_set pool
              limit Hd) as [Hf1 _].
  fold first in Hf1.
  pose proof (Hf1 _ _ Hd) as Hd1.
  destruct (find_dice_store_object numerator denominator p_value first.2
              dice_set pool limit l2 Hd1 H2) as [E2 _].
  destruct (find_dice_store numerator denominator p_value first.2 dice_set
              pool limit Hd1) as [Hf2 _].
  fold second in Hf2.
  assert (Hn2 : first.2 !! l2 = None)
    by (rewrite E2; apply not_elem_of_dom, is_fresh).
  split; [rewrite E1; apply not_elem_of_dom, is_fresh|].
  split; [congruence|].
  rewrite Hi1; apply Hf2, Hi1.
Qed.

Lemma find_dice_returns_a_new_object_witness :
  let first :=
    Store.find_dice (S754_zero false) 1 4 Store.RPG_DICE_SET_ref 3
      Store.module_store in
  let second :=
    Store.find_dice (S754_zero false) 1 4 Store.RPG_DICE_SET_ref 3 first.2 in
  Store.module_store !! 2%positive = None
  /\ 2%positive <> 3%positive
  /\ second.2 !! 2%positive = first.2 !! 2%positive.
Proof.
  apply (find_dice_returns_a_new_object (S754_zero false) 1 4 3
           Store.module_store Store.RPG_DICE_SET_ref RPG_DICE_SET
           2%positive 3%positive).
  - reflexivity.
  - vm_compute; reflexivity.
  - vm_compute; reflexivity.
Defined.

(** ** What [hypergeometric_cdf] hands back *)

Section Cdf.

Lemma range_empty lo hi : hi <= lo -> Py.range lo hi = [].
Proof. intros H; unfold Py.range; apply seqZ_nil; lia. Qed.

Lemma range_split lo mid hi :
  lo <= mid <= hi -> Py.range lo hi = Py.range lo mid ++ Py.range mid hi.
Proof.
  intros H; unfold Py.range.
  replace (hi - lo) with ((mid - lo) + (hi - mid)) by lia.
  rewrite seqZ_app by lia; do 2 f_equal; lia.
Qed.

Lemma range_singleton k : Py.range k (k + 1) = [k].
Proof.
  unfold Py.range; replace (k + 1 - k) with 1 by lia; reflexivity.
Qed.




(** The quotient of a non-negative by a positive integer is never the float
    [-0.0]. *)
Lemma truediv_not_negative_zero a b :
  0 <= a -> 0 < b ->
  SFdiv Py.prec Py.emax (Py.int_as_float a) (Py.int_as_float b)
  <> S754_zero true.
Proof.
  intros Ha Hb.
  destruct b as [|b|b]; try lia.
  destruct a as [|a|a]; try lia; [simpl; discriminate|].
  unfold Py.int_as_float, SFdiv.
  destruct (SFdiv_core_binary _ _ _ _ _ _) as [[mz ez] lz].
  unfold binary_round_aux.
  destruct (shr_fexp _ _ _ _ _) as [mrs' e'].
  destruct (shr_fexp _ _ _ _ _) as [mrs'' e''].
  destruct (shr_m mrs''); simpl; [discriminate| |discriminate].
  destruct (e'' <=? _); discriminate.
Qed.

Lemma sum_single p :
  p <> S754_zero true -> sum_floats [p] = PFloat p.
Proof.
  intros Hp; unfold sum_floats; simpl.
  destruct p as [[]| | |]; try reflexivity; done.
Qed.

End Cdf.

(** A relation token that is not one of the six is refused before anything
    else is looked at: the call raises "Invalid Inequality Option" whatever
    the other arguments are, invalid parameters included. *)
Theorem cdf_unrecognized_relation (N K n k : Z) (inequality : string) :
  ~ recognized inequality ->
  hypergeometric_cdf N K n k inequality
  = Raise (ValueError "Invalid Inequality Option").
Proof. apply cdf_unrecognized. Qed.

Lemma cdf_unrecognized_relation_witness :
  hypergeometric_cdf 5 6 2 1 "le"
  = Raise (ValueError "Invalid Inequality Option").
Proof.
  apply (cdf_unrecognized_relation 5 6 2 1 "le").
  apply (bool_decide_unpack (~ recognized "le")); vm_compute; exact I.
Defined.



(** When the relation selects no [k] at all, the call returns the integer 0
    and never looks at the parameters, so invalid ones go unnoticed. This
    is so for "lt" with a target of 0 or less, for "gte" with a target
    above [min(draws, total_successes)], and for "gt" with a target at or
    above it. *)
Theorem cdf_empty_selection (N K n k : Z) (inequality : string) :
  (inequality = "lt"%string /\ k <= 0)
  \/ (inequality = "gte"%string /\ Z.min n K < k)
  \/ (inequality = "gt"%string /\ Z.min n K <= k) ->
  hypergeometric_cdf N K n k inequality = Return (PInt 0).
Proof.
  intros [[-> Hk]|[[-> Hk]|[-> Hk]]];
    unfold hypergeometric_cdf; simpl;
    rewrite range_empty by lia; reflexivity.
Qed.

Lemma cdf_empty_selection_witness :
  hypergeometric_cdf 5 6 2 0 "lt" = Return (PInt 0).
Proof.
  apply (cdf_empty_selection 5 6 2 0 "lt").
  left; split; [reflexivity|lia].
Defined.



(** With the relation "eq", valid parameters and a target within
    [0, min(draws, total_successes)], the call returns the very float that
    [hypergeometric_pmf] returns as [p_value]. *)
Theorem cdf_eq_is_pmf (N K n k : Z) :
  ~ invalid_parameters N K n ->
  0 <= k <= Z.min n K ->
  exists p_value numerator denominator,
    hypergeometric_pmf N K n k
    = Return (PmfTuple p_value numerator denominator)
    /\ hypergeometric_cdf N K n k "eq" = Return (PFloat p_value).
Proof.
  intros Hv Hk.
  assert (Hp : ~ impossible_target K n k) by (unfold impossible_target; lia).
  destruct (pmf_possible N K n k Hv Hp) as (Ha & Hb & E).
  eexists _, _, _; split; [exact E|].
  unfold hypergeometric_cdf; simpl; rewrite E; simpl.
  rewrite sum_single; [reflexivity|].
  apply truediv_not_negative_zero; lia.
Qed.

Lemma cdf_eq_is_pmf_witness :
  exists p_value numerator denominator,
    hypergeometric_pmf 10 5 2 2
    = Return (PmfTuple p_value numerator denominator)
    /\ hypergeometric_cdf 10 5 2 2 "eq" = Return (PFloat p_value).
Proof.
  apply (cdf_eq_is_pmf 10 5 2 2).
  - unfold invalid_parameters; lia.
  - lia.
Defined.

(** How the relations select: for a target [k] within [0, max], "lte" and
    "gt" together select every value of [0 .. max] once and in order, as do
    "lt" and "gte"; "neq" selects what "lt" and "gt" select; and "lte"
    selects what "lt" and "eq" select. *)
Theorem relations_partition_the_range (k max_successes : Z) :
  0 <= k <= max_successes ->
  exists eq lte lt gte gt neq,
    k_values_of "eq" k max_successes = Return eq
    /\ k_values_of "lte" k max_successes = Return lte
    /\ k_values_of "lt" k max_successes = Return lt
    /\ k_values_of "gte" k max_successes = Return gte
    /\ k_values_of "gt" k max_successes = Return gt
    /\ k_values_of "neq" k max_successes = Return neq
    /\ lte ++ gt = Py.range 0 (max_successes + 1)
    /\ lt ++ gte = Py.range 0 (max_successes + 1)
    /\ neq = lt ++ gt
    /\ lte = lt ++ eq.
Proof.
  intros Hk; do 6 eexists.
  do 6 (split; [reflexivity|]).
  split; [symmetry; apply range_split; lia|].
  split; [symmetry; apply range_split; lia|].
  split; [reflexivity|].
  rewrite (range_split 0 k (k + 1)) by lia; rewrite range_singleton.
  reflexivity.
Qed.

Lemma relations_partition_the_range_witness :
  exists eq lte lt gte gt neq,
    k_values_of "eq" 1 2 = Return eq
    /\ k_values_of "lte" 1 2 = Return lte
    /\ k_values_of "lt" 1 2 = Return lt
    /\ k_values_of "gte" 1 2 = Return gte
    /\ k_values_of "gt" 1 2 = Return gt
    /\ k_values_of "neq" 1 2 = Return neq
    /\ lte ++ gt = Py.range 0 (2 + 1)
    /\ lt ++ gte = Py.range 0 (2 + 1)
    /\ neq = lt ++ gt
    /\ lte = lt ++ eq.
Proof.
  apply (relations_partition_the_range 1 2); lia.
Defined.

(** ** The fractions that [hypergeometric_pmf] hands back *)

Section Vandermonde.

Lemma binomial_0_r n : Py.binomial n 0 = 1.
Proof. destruct n; reflexivity. Qed.

Lemma binomial_pascal n k :
  Py.binomial (S n) (S k) = Py.binomial n k + Py.binomial n (S k).
Proof. reflexivity. Qed.

Lemma sum_cons x l : Py.sum (x :: l) = x + Py.sum l.
Proof. reflexivity. Qed.

Lemma sum_app l1 l2 : Py.sum (l1 ++ l2) = Py.sum l1 + Py.sum l2.
Proof.
  induction l1 as [|x l1 IH]; [reflexivity|].
  rewrite <- app_comm_cons, !sum_cons, IH; lia.
Qed.

Lemma sum_fmap_ext {A} (f g : A -> Z) l :
  (forall x, x ∈ l -> f x = g x) -> Py.sum (f <$> l) = Py.sum (g <$> l).
Proof.
  induction l as [|x l IH]; intros H; [reflexivity|].
  rewrite !fmap_cons, !sum_cons, (H x), IH; [reflexivity| |left].
  intros y Hy; apply H; right; exact Hy.
Qed.

Lemma sum_fmap_add {A} (f g : A -> Z) l :
  Py.sum ((fun x => f x + g x) <$> l) = Py.sum (f <$> l) + Py.sum (g <$> l).
Proof.
  induction l as [|x l IH]; [reflexivity|].
  rewrite !fmap_cons, !sum_cons, IH; lia.
Qed.

Lemma sum_fmap_zero {A} (f : A -> Z) l :
  (forall x, x ∈ l -> f x = 0) -> Py.sum (f <$> l) = 0.
Proof.
  induction l as [|x l IH]; intros H; [reflexivity|].
  rewrite fmap_cons, sum_cons, (H x), IH; [reflexivity| |left].
  intros y Hy; apply H; right; exact Hy.
Qed.

(** Vandermonde's identity. *)
Lemma vandermonde_head (f : nat -> Z) n :
  Py.sum (f <$> seq 0 (S n)) = f 0%nat + Py.sum ((fun j => f (S j)) <$> seq 0 n).
Proof.
  cbn [seq]; rewrite fmap_cons, sum_cons, <- fmap_S_seq.
  rewrite <- list_fmap_compose; reflexivity.
Qed.

Lemma vandermonde K M : forall n,
  Py.sum ((fun k => Py.binomial K k * Py.binomial M (n - k)) <$> seq 0 (S n))
  = Py.binomial (K + M) n.
Proof.
  induction K as [|K IH]; intros n.
  - rewrite vandermonde_head, Nat.sub_0_r.
    rewrite sum_fmap_zero by (intros j _; reflexivity).
    change (Py.binomial 0 0) with 1; simpl plus; lia.
  - rewrite vandermonde_head, Nat.sub_0_r.
    rewrite (sum_fmap_ext _
               (fun j => Py.binomial K j * Py.binomial M (n - S j)
                         + Py.binomial K (S j) * Py.binomial M (n - S j)))
      by (intros j _; rewrite binomial_pascal; lia).
    rewrite sum_fmap_add.
    pose proof (IH n) as Hn.
    rewrite vandermonde_head, Nat.sub_0_r in Hn.
    rewrite !binomial_0_r in *.
    destruct n as [|n'].
    + simpl seq in *; simpl fmap in *.
      change (Py.sum []) with 0 in *.
      rewrite !binomial_0_r; lia.
    + rewrite (sum_fmap_ext
                 (fun j => Py.binomial K j * Py.binomial M (S n' - S j))
                 (fun j => Py.binomial K j * Py.binomial M (n' - j)))
        by (intros j _; reflexivity).
      rewrite (IH n').
      change (S K + M)%nat with (S (K + M)); rewrite binomial_pascal; lia.
Qed.

(** The sum may stop at [m] when the terms beyond it vanish. *)
Lemma sum_truncate (g : nat -> Z) m n :
  (m <= n)%nat ->
  (forall i, (m < i <= n)%nat -> g i = 0) ->
  Py.sum (g <$> seq 0 (S m)) = Py.sum (g <$> seq 0 (S n)).
Proof.
  intros Hmn Hz.
  replace (S n) with (S m + (n - m))%nat by lia.
  rewrite seq_app, fmap_app, sum_app.
  rewrite (sum_fmap_zero g (seq (0 + S m) (n - m))); [lia|].
  intros i Hi; apply elem_of_seq in Hi; apply Hz; lia.
Qed.

Lemma range_as_seq m :
  Py.range 0 (m + 1) = Z.of_nat <$> seq 0 (Z.to_nat (m + 1)).
Proof.
  unfold Py.range, seqZ; rewrite Z.sub_0_r.
  apply list_fmap_ext; intros _ i _; lia.
Qed.

Lemma unreduced_sum N K n :
  0 <= K <= N -> 0 <= n <= N ->
  Py.sum ((fun k => choose K k * choose (N - K) (n - k))
          <$> Py.range 0 (Z.min n K + 1))
  = choose N n.
Proof.
  intros HK Hn; rewrite range_as_seq, <- list_fmap_compose.
  replace (Z.to_nat (Z.min n K + 1))
    with (S (Nat.min (Z.to_nat n) (Z.to_nat K))) by lia.
  unfold choose.
  rewrite (sum_fmap_ext _
             (fun i => Py.binomial (Z.to_nat K) i
                       * Py.binomial (Z.to_nat (N - K)) (Z.to_nat n - i))).
  - rewrite (sum_truncate _ _ (Z.to_nat n)).
    + rewrite vandermonde; f_equal; lia.
    + lia.
    + intros i Hi; rewrite (binomial_zero (Z.to_nat K) i) by lia; lia.
  - intros i Hi; apply elem_of_seq in Hi; simpl.
    rewrite Nat2Z.id; do 2 f_equal; lia.
Qed.

Lemma gcd_pos_r a b : 0 < b -> 0 < Z.gcd a b.
Proof.
  intros Hb; pose proof (Z.gcd_nonneg a b).
  destruct (decide (Z.gcd a b = 0)) as [E|]; [|lia].
  apply Z.gcd_eq_0_r in E; lia.
Qed.

Lemma reduced_parts a b :
  0 <= a -> 0 < b ->
  let g := Z.gcd a b in
  0 < g /\ a = a / g * g /\ b = b / g * g /\ 0 <= a / g /\ 0 < b / g.
Proof.
  intros Ha Hb g.
  assert (Hg : 0 < g) by (apply gcd_pos_r; exact Hb).
  destruct (Z.gcd_divide_l a b) as [a' Ea].
  destruct (Z.gcd_divide_r a b) as [b' Eb].
  fold g in Ea, Eb.
  assert (a / g = a') as -> by (rewrite Ea at 1; apply Z.div_mul; lia).
  assert (b / g = b') as -> by (rewrite Eb at 1; apply Z.div_mul; lia).
  repeat split; try assumption; nia.
Qed.

End Vandermonde.

(** On valid parameters and a target within [0, min(draws,
    total_successes)], the fraction returned is a probability: the
    numerator is between 0 and the denominator, and the denominator
    divides [C(N, n)]. *)
Theorem pmf_fraction_is_a_probability (N K n k : Z) :
  ~ invalid_parameters N K n ->
  0 <= k <= Z.min n K ->
  exists p_value numerator denominator,
    hypergeometric_pmf N K n k
    = Return (PmfTuple p_value numerator denominator)
    /\ 0 <= numerator <= denominator
    /\ (denominator | choose N n).
Proof.
  intros Hv Hk.
  assert (Hp : ~ impossible_target K n k) by (unfold impossible_target; lia).
  destruct (pmf_possible N K n k Hv Hp) as (Ha & Hb & E).
  destruct (reduced_parts _ _ (proj1 Ha) Hb) as (Hg & Ea & Eb & Ha' & Hb').
  eexists _, _, _; split; [exact E|]; split.
  - split; [exact Ha'|]; nia.
  - exists (Z.gcd (choose K k * choose (N - K) (n - k)) (choose N n)).
    rewrite Z.mul_comm; exact Eb.
Qed.

Lemma pmf_fraction_is_a_probability_witness :
  exists p_value numerator denominator,
    hypergeometric_pmf 10 5 2 2
    = Return (PmfTuple p_value numerator denominator)
    /\ 0 <= numerator <= denominator
    /\ (denominator | choose 10 2).
Proof.
  apply (pmf_fraction_is_a_probability 10 5 2 2).
  - unfold invalid_parameters; lia.
  - lia.
Defined.

(** On valid parameters and a target within [0, min(draws,
    total_successes)], the numerator is 0 exactly when the draws that are
    not successes outnumber the items that are not successes; the tuple is
    then [(0.0, 0, 1)]. *)
Theorem pmf_zero_probability (N K n k : Z) :
  ~ invalid_parameters N K n ->
  0 <= k <= Z.min n K ->
  exists p_value numerator denominator,
    hypergeometric_pmf N K n k
    = Return (PmfTuple p_value numerator denominator)
    /\ (numerator = 0 <-> N - K < n - k)
    /\ (numerator = 0 -> denominator = 1 /\ p_value = S754_zero false).
Proof.
  intros Hv Hk.
  assert (Hp : ~ impossible_target K n k) by (unfold impossible_target; lia).
  destruct (pmf_possible N K n k Hv Hp) as (Ha & Hb & E).
  destruct (reduced_parts _ _ (proj1 Ha) Hb) as (Hg & Ea & Eb & Ha' & Hb').
  unfold invalid_parameters in Hv.
  assert (H1 : 0 < choose K k) by (apply binomial_pos; lia).
  assert (Hz : choose K k * choose (N - K) (n - k) = 0 <-> N - K < n - k).
  { unfold choose in *; split.
    - intros H0; destruct (Z_lt_dec (N - K) (n - k)) as [|Hge]; [assumption|].
      pose proof (binomial_pos (Z.to_nat (N - K)) (Z.to_nat (n - k))
                    ltac:(lia)); nia.
    - intros Hlt; rewrite (binomial_zero (Z.to_nat (N - K))) by lia; lia. }
  set (a := choose K k * choose (N - K) (n - k)) in *.
  set (b := choose N n) in *.
  eexists _, _, _; split; [exact E|]; split.
  - rewrite <- Hz; split; [intros H0; rewrite Ea, H0; lia|].
    intros H0; rewrite H0; apply Zdiv_0_l.
  - intros H0.
    assert (a = 0) as Ha0 by (rewrite Ea, H0; lia).
    rewrite Ha0; split.
    + rewrite Z.gcd_0_l, Z.abs_eq by lia; apply Z.div_same; lia.
    + destruct b; try lia; reflexivity.
Qed.

Lemma pmf_zero_probability_witness :
  exists p_value numerator denominator,
    hypergeometric_pmf 10 9 3 1
    = Return (PmfTuple p_value numerator denominator)
    /\ (numerator = 0 <-> 10 - 9 < 3 - 1)
    /\ (numerator = 0 -> denominator = 1 /\ p_value = S754_zero false).
Proof.
  apply (pmf_zero_probability 10 9 3 1).
  - unfold invalid_parameters; lia.
  - lia.
Defined.

(** On valid parameters with [draws] and [total_successes] not negative,
    the fractions returned for the targets 0 to
    [min(draws, total_successes)] add up to 1: brought to the common
    denominator [C(N, n)], their numerators add up to [C(N, n)]. *)
Theorem pmf_fractions_add_up_to_one (N K n : Z) :
  ~ invalid_parameters N K n ->
  0 <= K -> 0 <= n ->
  Py.sum (scaled_numerator N K n <$> Py.range 0 (Z.min n K + 1))
  = choose N n.
Proof.
  intros Hv HK Hn.
  rewrite <- (unreduced_sum N K n)
    by (unfold invalid_parameters in Hv; lia).
  apply sum_fmap_ext; intros k Hk; apply elem_of_range in Hk.
  assert (Hp : ~ impossible_target K n k) by (unfold impossible_target; lia).
  destruct (pmf_possible N K n k Hv Hp) as (Ha & Hb & E).
  destruct (reduced_parts _ _ (proj1 Ha) Hb) as (Hg & Ea & Eb & Ha' & Hb').
  unfold scaled_numerator; rewrite E.
  set (a := choose K k * choose (N - K) (n - k)) in *.
  set (b := choose N n) in *.
  assert (b / (b / Z.gcd a b) = Z.gcd a b) as ->.
  { rewrite Eb at 1; rewrite Z.mul_comm; apply Z.div_mul; lia. }
  lia.
Qed.

Lemma pmf_fractions_add_up_to_one_witness :
  Py.sum (scaled_numerator 10 5 2 <$> Py.range 0 (Z.min 2 5 + 1))
  = choose 10 2.
Proof.
  apply (pmf_fractions_add_up_to_one 10 5 2).
  - unfold invalid_parameters; lia.
  - lia.
  - lia.
Defined.

(** ** Float division of integers below 2^53 *)

Section ExactDivision.

Lemma digits2_size p : digits2_pos p = Pos.size p.
Proof. induction p; simpl; congruence. Qed.

Lemma digits_log2 p : Z.pos (digits2_pos p) = Z.log2 (Z.pos p) + 1.
Proof.
  rewrite digits2_size.
  destruct p; simpl; rewrite ?Pos2Z.inj_succ; lia.
Qed.

Lemma digits_bounds p :
  2 ^ (Z.pos (digits2_pos p) - 1) <= Z.pos p < 2 ^ Z.pos (digits2_pos p).
Proof.
  rewrite digits_log2.
  replace (Z.log2 (Z.pos p) + 1 - 1) with (Z.log2 (Z.pos p)) by lia.
  replace (Z.log2 (Z.pos p) + 1) with (Z.succ (Z.log2 (Z.pos p))) by lia.
  apply Z.log2_spec; lia.
Qed.

Lemma shr_nonpos mrs e n : n <= 0 -> shr mrs e n = (mrs, e).
Proof. destruct n; [reflexivity|lia|reflexivity]. Qed.

Lemma round_noshift p ex :
  fexp Py.prec Py.emax (Z.pos (digits2_pos p) + ex) - ex <= 0 ->
  ex <= Py.emax - Py.prec ->
  binary_round_aux Py.prec Py.emax false (Z.pos p) ex loc_Exact
  = S754_finite false p ex.
Proof.
  intros Hn He; unfold binary_round_aux, shr_fexp.
  cbn [Zdigits2 shr_record_of_loc].
  rewrite shr_nonpos by exact Hn.
  cbn [shr_m loc_of_shr_record round_nearest_even Zdigits2 shr_record_of_loc].
  rewrite shr_nonpos by exact Hn.
  cbn [shr_m].
  destruct (Z.leb_spec ex (Py.emax - Py.prec)); [reflexivity|lia].
Qed.

Lemma round_shift_one p ex :
  fexp Py.prec Py.emax (Z.pos (digits2_pos p~0) + ex) - ex = 1 ->
  ex + 1 <= Py.emax - Py.prec ->
  binary_round_aux Py.prec Py.emax false (Z.pos p~0) ex loc_Exact
  = S754_finite false p (ex + 1).
Proof.
  intros Hn He; unfold binary_round_aux, shr_fexp.
  cbn [Zdigits2 shr_record_of_loc].
  rewrite Hn.
  cbn [shr SpecFloat.iter_pos shr_1 orb shr_m loc_of_shr_record
       round_nearest_even Zdigits2 shr_record_of_loc].
  rewrite shr_nonpos.
  - cbn [shr_m].
    destruct (Z.leb_spec (ex + 1) (Py.emax - Py.prec)); [reflexivity|lia].
  - cbn [digits2_pos] in Hn; rewrite Pos2Z.inj_succ in Hn.
    cbn [Zdigits2].
    replace (Z.pos (digits2_pos p) + (ex + 1))
      with (Z.succ (Z.pos (digits2_pos p)) + ex) by lia.
    lia.
Qed.

Lemma digits_unique p d :
  2 ^ (d - 1) <= Z.pos p < 2 ^ d -> Z.pos (digits2_pos p) = d.
Proof.
  intros H; rewrite digits_log2.
  assert (0 <= d - 1).
  { destruct (Z_le_dec 0 (d - 1)); [assumption|].
    destruct H as [_ H]; assert (d <= 0) by lia.
    destruct (Z.eq_dec d 0) as [->|]; [simpl in H; lia|].
    rewrite Z.pow_neg_r in H by lia; lia. }
  rewrite (Z.log2_unique (Z.pos p) (d - 1)); [lia|assumption|].
  replace (Z.succ (d - 1)) with d by lia; exact H.
Qed.

Lemma pow_lt_exponent a b : 0 <= b -> 2 ^ a < 2 ^ b -> a < b.
Proof.
  intros Hb H; destruct (Z_lt_dec a b); [assumption|].
  assert (2 ^ b <= 2 ^ a) by (apply Z.pow_le_mono_r; lia); lia.
Qed.

Lemma new_location_zero m : new_location m 0 = loc_Exact.
Proof.
  unfold new_location, new_location_even, new_location_odd.
  destruct (Z.even m); reflexivity.
Qed.

Lemma div_core_exact (q m1 m2 : positive) :
  Z.pos m1 = Z.pos q * Z.pos m2 ->
  Z.pos q < 2 ^ 53 ->
  let dq := Z.pos (digits2_pos q) in
  let d := Z.pos (digits2_pos m1) - Z.pos (digits2_pos m2) in
  let s := 53 - d in
  (d = dq - 1 \/ d = dq) /\ 1 <= dq <= 53 /\
  SFdiv_core_binary Py.prec Py.emax (Z.pos m1) 0 (Z.pos m2) 0
  = (Z.pos q * 2 ^ s, - s, loc_Exact).
Proof.
  intros Em Hq dq d s.
  destruct (digits_bounds q) as [Hq1 Hq2]; fold dq in Hq1, Hq2.
  destruct (digits_bounds m1) as [H11 H12].
  destruct (digits_bounds m2) as [H21 H22].
  set (d1 := Z.pos (digits2_pos m1)) in *.
  set (d2 := Z.pos (digits2_pos m2)) in *.
  assert (Hdq : 1 <= dq <= 53).
  { split; [subst dq; lia|].
    assert (dq - 1 < 53); [|lia].
    apply pow_lt_exponent; lia. }
  assert (Hd1 : 1 <= d1) by (subst d1; lia).
  assert (Hd2 : 1 <= d2) by (subst d2; lia).
  assert (Hup : d1 <= dq + d2).
  { assert (d1 - 1 < dq + d2); [|lia].
    apply pow_lt_exponent; [lia|].
    rewrite Z.pow_add_r by lia. nia. }
  assert (Hlow : dq + d2 - 1 <= d1).
  { assert (dq - 1 + (d2 - 1) < d1); [|lia].
    apply pow_lt_exponent; [lia|].
    rewrite Z.pow_add_r by lia. nia. }
  split; [subst d; lia|]; split; [exact Hdq|].
  unfold SFdiv_core_binary; cbn [Zdigits2]; fold d1 d2.
  unfold fexp, emin, Py.prec, Py.emax.
  replace (d1 + 0 - (d2 + 0)) with d by (subst d; lia).
  replace (Z.min (Z.max (d - 53) (3 - 1024 - 53)) (0 - 0)) with (- s)
    by (subst s d; lia).
  replace (0 - 0 - - s) with s by lia.
  assert (Hs : 0 <= s) by (subst s d; lia).
  assert (Hm' : match s with
                | 0 => Z.pos m1
                | Z.pos _ => Z.shiftl (Z.pos m1) s
                | Z.neg _ => 0
                end = Z.pos q * 2 ^ s * Z.pos m2).
  { destruct s as [|ps|ps] eqn:Es; [simpl; lia| |lia].
    rewrite Z.shiftl_mul_pow2 by lia; rewrite Em; ring. }
  rewrite Hm'.
  pose proof (Z.div_eucl_eq (Z.pos q * 2 ^ s * Z.pos m2) (Z.pos m2)
                ltac:(lia)) as Heq.
  pose proof (Z.mod_pos_bound (Z.pos q * 2 ^ s * Z.pos m2) (Z.pos m2)
                ltac:(lia)) as Hmod.
  unfold Z.modulo in Hmod.
  destruct (Z.div_eucl (Z.pos q * 2 ^ s * Z.pos m2) (Z.pos m2)) as [q' r].
  assert (r = 0 /\ q' = Z.pos q * 2 ^ s) as [-> ->].
  { assert (q' = Z.pos q * 2 ^ s) by nia. split; [nia|assumption]. }
  rewrite new_location_zero; reflexivity.
Qed.

Lemma digits_shifted (q : positive) s p :
  0 <= s -> Z.pos p = Z.pos q * 2 ^ s ->
  Z.pos (digits2_pos p) = Z.pos (digits2_pos q) + s.
Proof.
  intros Hs Ep; apply digits_unique; rewrite Ep.
  destruct (digits_bounds q) as [H1 H2].
  assert (0 < 2 ^ s) by (apply Z.pow_pos_nonneg; lia).
  replace (Z.pos (digits2_pos q) + s - 1)
    with (Z.pos (digits2_pos q) - 1 + s) by lia.
  rewrite !Z.pow_add_r by lia; nia.
Qed.

Lemma truediv_exact (a b q : Z) :
  0 < b -> 0 < q < 2 ^ 53 -> a = q * b ->
  exists m e,
    SFdiv Py.prec Py.emax (Py.int_as_float a) (Py.int_as_float b) = S754_finite false m e
    /\ e <= 0 /\ Z.pos m = q * 2 ^ (- e).
Proof.
  intros Hb Hq ->.
  destruct b as [|m2|]; try lia.
  destruct q as [|q|]; try lia.
  change (Z.pos q * Z.pos m2) with (Z.pos (q * m2)).
  cbn [Py.int_as_float SFdiv xorb].
  destruct (div_core_exact q (q * m2) m2 ltac:(lia) ltac:(lia))
    as (Hd & Hdq & ->).
  set (dq := Z.pos (digits2_pos q)) in *.
  set (d := Z.pos (digits2_pos (q * m2)) - Z.pos (digits2_pos m2)) in *.
  set (s := 53 - d) in *.
  assert (Hs : 0 <= s) by (subst s; lia).
  assert (Hpow : 0 < 2 ^ s) by (apply Z.pow_pos_nonneg; lia).
  destruct (Z.pos q * 2 ^ s) as [|p|] eqn:Ep; try lia.
  assert (Hdig : Z.pos (digits2_pos p) = dq + s)
    by (apply digits_shifted; lia).
  assert (Hf : fexp Py.prec Py.emax (Z.pos (digits2_pos p) + - s) = dq - 53).
  { unfold fexp, emin, Py.prec, Py.emax; rewrite Hdig; lia. }
  destruct Hd as [Hd|Hd].
  - assert (Es : s = Z.succ (s - 1)) by lia.
    assert (Hs1 : 0 <= s - 1) by (subst s; lia).
    rewrite Es, Z.pow_succ_r in Ep by lia.
    assert (Hpow1 : 0 < 2 ^ (s - 1)) by (apply Z.pow_pos_nonneg; lia).
    destruct p as [p|p|]; try lia.
    rewrite round_shift_one.
    + exists p, (- s + 1); split; [reflexivity|]; split; [lia|].
      replace (- (- s + 1)) with (s - 1) by lia; lia.
    + rewrite Hf; subst s; lia.
    + unfold Py.prec, Py.emax; lia.
  - rewrite round_noshift.
    + exists p, (- s); split; [reflexivity|]; split; [lia|].
      rewrite Z.opp_involutive; lia.
    + rewrite Hf; subst s; lia.
    + unfold Py.prec, Py.emax; lia.
Qed.









End ExactDivision.

(** ** [validate_distro] on target counts below 2^53 *)

Section ExactTarget.

Lemma target_cases_exact numerator denominator num_cases q :
  0 < denominator ->
  numerator * num_cases = q * denominator ->
  0 <= q < 2 ^ 53 ->
  exists target_cases,
    target_cases_of numerator denominator num_cases = Return target_cases
    /\ forall z, Py.int_compare_float z target_cases = Some (z ?= q).
Proof.
  intros Hd Eq Hq; unfold target_cases_of, Py.truediv, Py.true_div_overflows.
  destruct (Z.eqb_spec denominator 0); [lia|].
  assert (Hbig : 2 ^ 53 <= 2 ^ 1024 - 2 ^ 970) by (vm_compute; discriminate).
  destruct (Z.leb_spec ((2 ^ 1024 - 2 ^ 970) * Z.abs denominator)
              (Z.abs (numerator * num_cases))) as [Hle|_].
  { rewrite Eq in Hle; rewrite !Z.abs_eq in Hle by nia; nia. }
  eexists; split; [reflexivity|]; intros z.
  destruct (Z.eq_dec q 0) as [->|Hq0].
  - rewrite Eq; simpl.
    destruct denominator; try lia; reflexivity.
  - destruct (truediv_exact (numerator * num_cases) denominator q
                Hd ltac:(lia) Eq) as (m & e & -> & He & Em).
    unfold Py.int_compare_float.
    destruct (Z.leb_spec 0 e).
    + assert (e = 0) as -> by lia.
      rewrite Em; simpl; rewrite !Z.mul_1_r; reflexivity.
    + rewrite Em; f_equal; symmetry; apply Zmult_compare_compat_r.
      apply Z.lt_gt, Z.pow_pos_nonneg; lia.
Qed.

Lemma exact_eq z q f :
  (forall z, Py.int_compare_float z f = Some (z ?= q)) ->
  Py.int_eq_float z f = (z =? q) /\ Py.int_gt_float z f = (q <? z).
Proof.
  intros H; unfold Py.int_eq_float, Py.int_gt_float; rewrite H.
  destruct (Z.compare_spec z q), (Z.eqb_spec z q), (Z.ltb_spec q z);
    split; try reflexivity; lia.
Qed.

Lemma total_count_nonneg l :
  Forall (fun item => 0 < item.2) l -> 0 <= total_count l.
Proof.
  induction 1 as [|[k v] l Hv H IH]; [unfold total_count; simpl; lia|].
  rewrite total_count_cons; simpl in Hv; lia.
Qed.

(** The scan stops at the first key at which the running total equals the
    target. *)
Lemma scan_complete f q before : forall cum t v after,
  (forall z, Py.int_compare_float z f = Some (z ?= q)) ->
  Forall (fun item => 0 < item.2) (before ++ (t, v) :: after) ->
  cum + total_count before + v = q ->
  scan f cum (before ++ (t, v) :: after) = PyInt t.
Proof.
  induction before as [|[k w] before IH]; intros cum t v after Hf Hpos Hq.
  - simpl; destruct (exact_eq (cum + v) q f Hf) as [-> _].
    unfold total_count in Hq; simpl in Hq.
    destruct (Z.eqb_spec (cum + v) q); [reflexivity|lia].
  - rewrite <- app_comm_cons in Hpos |- *.
    apply Forall_cons in Hpos as [Hw Hpos]; simpl in Hw.
    rewrite total_count_cons in Hq.
    pose proof Hpos as Hpos'; apply Forall_app in Hpos' as [Hb Ha].
    apply Forall_cons in Ha as [Hv _]; simpl in Hv.
    pose proof (total_count_nonneg before Hb).
    cbn [scan]; destruct (exact_eq (cum + w) q f Hf) as [-> ->].
    destruct (Z.eqb_spec (cum + w) q); [lia|].
    destruct (Z.ltb_spec q (cum + w)); [lia|].
    apply IH; [exact Hf|exact Hpos|lia].
Qed.

Lemma num_cases_positive dice :
  Forall (fun d => 1 <= d) dice -> 1 <= num_cases_of dice.
Proof.
  intros Hd; rewrite num_cases_of_foldr; unfold faces_product.
  induction Hd as [|d dice Hd0 Hd IH]; simpl; [lia|nia].
Qed.

Lemma quotient_exact numerator denominator num_cases :
  0 < denominator ->
  num_cases mod denominator = 0 ->
  numerator * num_cases
  = target_count numerator denominator num_cases * denominator.
Proof.
  intros Hd Hm; unfold target_count.
  assert (Hm' : (numerator * num_cases) mod denominator = 0).
  { apply Z.mod_divide; [lia|].
    apply Z.divide_mul_r, Z.mod_divide; [lia|exact Hm]. }
  pose proof (Z.div_mod (numerator * num_cases) denominator ltac:(lia)).
  lia.
Qed.

End ExactTarget.

(** When the denominator is positive and divides [numerator * num_cases]
    with a quotient from 0 to below 2^53, the float [target_cases] is that
    quotient exactly: comparing any integer with it is comparing with the
    quotient. *)
Theorem target_cases_exact_below_2_53
    (numerator denominator num_cases : Z) :
  0 < denominator ->
  num_cases mod denominator = 0 ->
  0 <= target_count numerator denominator num_cases < 2 ^ 53 ->
  exists target_cases,
    target_cases_of numerator denominator num_cases = Return target_cases
    /\ forall z,
         Py.int_compare_float z target_cases
         = Some (z ?= target_count numerator denominator num_cases).
Proof.
  intros Hd Hm Hq.
  apply target_cases_exact; [exact Hd| |exact Hq].
  apply quotient_exact; assumption.
Qed.

Lemma target_cases_exact_below_2_53_witness :
  exists target_cases,
    target_cases_of 1 6 36 = Return target_cases
    /\ forall z,
         Py.int_compare_float z target_cases
         = Some (z ?= target_count 1 6 36).
Proof.
  apply (target_cases_exact_below_2_53 1 6 36).
  - lia.
  - reflexivity.
  - vm_compute; split; [discriminate|reflexivity].
Defined.

Lemma validate_distro_exact_threshold_aux
    (numerator denominator : Z) (dice : list Z) (t : Z) :
  0 < denominator ->
  num_cases_of dice mod denominator = 0 ->
  0 <= target_count numerator denominator (num_cases_of dice) < 2 ^ 53 ->
  t <> 0 ->
  validate_distro numerator denominator dice = Return (PyInt t) <->
  0 < outcomes_with_sum t dice
  /\ outcomes_at_least t dice
     = target_count numerator denominator (num_cases_of dice).
Proof.
  intros Hd Hm Hq Ht.
  destruct (target_cases_exact numerator denominator (num_cases_of dice) _
              Hd (quotient_exact _ _ _ Hd Hm) Hq) as (f & Ef & Hf).
  split.
  - intros Hv.
    pose proof Hv as Hv'.
    apply validate_distro_threshold in Hv' as (_ & _ & f' & Ef' & Heq);
      [|exact Ht].
    assert (f' = f) as -> by congruence.
    destruct (exact_eq (outcomes_at_least t dice) _ f Hf) as [E _].
    rewrite E in Heq; apply Z.eqb_eq in Heq.
    split; [|exact Heq].
    apply validate_distro_inv in Hv
      as (_ & [[_ [= ->]]|(_ & f' & _ & Hs)]); [done|].
    symmetry in Hs; apply scan_found in Hs as (before & v & after & E' & _);
      [|exact Ht].
    assert (Hin : (t, v) ∈ distro_of dice).
    { rewrite E'; apply elem_of_app; right; left. }
    apply distro_counts_the_outcomes_aux in Hin as [<- Hpos]; exact Hpos.
  - intros [Hpos Hcount].
    assert (Hin : (t, outcomes_with_sum t dice) ∈ distro_of dice)
      by (apply distro_counts_the_outcomes_aux; done).
    apply list_elem_of_split in Hin as (before & after & E).
    rewrite (validate_distro_divisible _ _ _ f) by (assumption || lia).
    f_equal; rewrite E.
    apply (scan_complete f
             (target_count numerator denominator (num_cases_of dice)) before);
      [exact Hf| |].
    + rewrite <- E; apply Forall_forall; intros [k w] Hk; simpl.
      eapply distro_count_positive, Hk.
    + rewrite <- Hcount; unfold outcomes_at_least.
      rewrite <- (distro_weight dice (fun k => t <=? k)), E.
      rewrite sorted_prefix_weight; [lia| |].
      * rewrite <- E; apply distro_sorted.
      * rewrite <- E; apply distro_NoDup.
Qed.



Lemma validate_distro_none_iff_above_one_aux
    (numerator denominator : Z) (dice : list Z) :
  Forall (fun d => 1 <= d) dice ->
  0 < denominator ->
  num_cases_of dice mod denominator = 0 ->
  0 <= target_count numerator denominator (num_cases_of dice) < 2 ^ 53 ->
  validate_distro numerator denominator dice = Return PyNone <->
  denominator < numerator.
Proof.
  intros Hdice Hd Hm Hq.
  pose proof (quotient_exact numerator _ _ Hd Hm) as Eq.
  destruct (target_cases_exact numerator denominator (num_cases_of dice) _
              Hd Eq Hq) as (f & Ef & Hf).
  pose proof (num_cases_positive dice Hdice) as HM.
  destruct (exact_eq (num_cases_of dice) _ f Hf) as [Eeq Egt].
  rewrite (validate_distro_none_iff_aux numerator denominator dice Hdice).
  unfold below_float; split.
  - intros (_ & _ & f' & Ef' & Hb1 & Hb2).
    assert (f' = f) as -> by congruence.
    rewrite Eeq in Hb1; rewrite Egt in Hb2.
    apply Z.eqb_neq in Hb1; apply Z.ltb_ge in Hb2; nia.
  - intros Hlt; split; [lia|]; split; [exact Hm|].
    exists f; split; [exact Ef|]; rewrite Eeq, Egt.
    split; [apply Z.eqb_neq|apply Z.ltb_ge]; nia.
Qed.

(** With every face at least 1, a positive denominator that divides
    [num_cases] and a target count from 0 to below 2^53, the result is
    [None] exactly when the numerator is greater than the denominator. *)
Theorem validate_distro_none_iff_above_one
    (numerator denominator : Z) (dice : list Z) :
  Forall (fun d => 1 <= d) dice ->
  0 < denominator ->
  num_cases_of dice mod denominator = 0 ->
  0 <= target_count numerator denominator (num_cases_of dice) < 2 ^ 53 ->
  validate_distro numerator denominator dice = Return PyNone <->
  denominator < numerator.
Proof. apply validate_distro_none_iff_above_one_aux. Qed.

Lemma validate_distro_none_iff_above_one_witness :
  validate_distro 2 1 [6] = Return PyNone <-> 1 < 2.
Proof.
  apply (validate_distro_none_iff_above_one 2 1 [6]).
  - repeat constructor; lia.
  - lia.
  - reflexivity.
  - vm_compute; split; [discriminate|reflexivity].
Defined.

(** With every face at least 1, fewer than 2^53 outcomes and a numerator
    equal to the positive denominator when that divides [num_cases], the
    result is the number of dice: every outcome reaches the smallest
    sum. *)
Theorem validate_distro_certain_event (denominator : Z) (dice : list Z) :
  Forall (fun d => 1 <= d) dice ->
  0 < denominator ->
  num_cases_of dice mod denominator = 0 ->
  num_cases_of dice < 2 ^ 53 ->
  validate_distro denominator denominator dice
  = Return (PyInt (Z.of_nat (length dice))).
Proof.
  intros Hdice Hd Hm Hlt.
  pose proof (num_cases_positive dice Hdice) as HM.
  destruct (target_cases_exact denominator denominator (num_cases_of dice)
              (num_cases_of dice) Hd ltac:(lia) ltac:(lia)) as (f & Ef & Hf).
  apply (validate_distro_whole _ _ _ f); try assumption; [lia| |].
  - intros z Hz; destruct (exact_eq z _ f Hf) as [-> ->].
    split; [apply Z.eqb_neq|apply Z.ltb_ge]; lia.
  - destruct (exact_eq (num_cases_of dice) _ f Hf) as [-> _].
    apply Z.eqb_refl.
Qed.

Lemma validate_distro_certain_event_witness :
  validate_distro 3 3 [4; 6] = Return (PyInt (Z.of_nat (length [4; 6]))).
Proof.
  apply (validate_distro_certain_event 3 [4; 6]).
  - repeat constructor; lia.
  - lia.
  - reflexivity.
  - vm_compute; reflexivity.
Defined.

Lemma rolls_faces_positive dice roll :
  roll ∈ rolls_of dice -> Forall (fun d => 1 <= d) dice.
Proof.
  intros Hr; apply elem_of_rolls in Hr.
  induction Hr as [|x d roll dice Hx Hr IH]; constructor; [lia|exact IH].
Qed.



(** Every solution that [find_dice] returns models the fraction exactly:
    with a positive denominator, a numerator that is not negative and a
    target count below 2^53, the number of outcome tuples of the dice with
    a sum of at least the threshold, times the denominator, is the
    numerator times the number of all outcome tuples. *)
Theorem find_dice_solutions_model_the_fraction
    p_value numerator denominator dice_set limit solutions dice t :
  0 < denominator ->
  0 <= numerator ->
  find_dice p_value numerator denominator dice_set limit = Return solutions ->
  (dice, PyInt t) ∈ solutions ->
  target_count numerator denominator (num_cases_of dice) < 2 ^ 53 ->
  outcomes_at_least t dice * denominator = numerator * num_cases_of dice.
Proof.
  intros Hd Hn Hf Hin Hq.
  pose proof (find_dice_cases p_value numerator denominator dice_set limit)
    as H; rewrite Hf in H.
  destruct H as [[-> _]|(N & _ & _ & -> & _)]; [inversion Hin|].
  apply elem_of_solutions_among in Hin as (_ & Hv & Ht).
  apply truthy_inv in Ht as (z & [= <-] & Hz).
  pose proof Hv as Hv'.
  apply validate_distro_threshold in Hv' as (_ & Hm & _); [|exact Hz].
  assert (Hdice : Forall (fun d => 1 <= d) dice).
  { apply validate_distro_inv in Hv
      as (_ & [[_ [= ->]]|(_ & f' & _ & Hs)]); [done|].
    symmetry in Hs; apply scan_found in Hs as (before & v & after & E & _);
      [|exact Hz].
    assert (Hk : (t, v) ∈ distro_of dice)
      by (rewrite E; apply elem_of_app; right; left).
    apply distro_key_is_sum in Hk as (roll & Hr & _).
    eapply rolls_faces_positive, Hr. }
  pose proof (num_cases_positive dice Hdice) as HM.
  assert (Hq0 : 0 <= target_count numerator denominator (num_cases_of dice)).
  { unfold target_count; apply Z.div_pos; nia. }
  apply validate_distro_exact_threshold_aux in Hv as [_ ->];
    try assumption; [|lia].
  symmetry; apply quotient_exact; assumption.
Qed.

Lemma find_dice_solutions_model_the_fraction_witness :
  outcomes_at_least 10 [4; 6] * 24 = 1 * num_cases_of [4; 6].
Proof.
  apply (find_dice_solutions_model_the_fraction (S754_zero false) 1 24
           [4; 6] 5 [([4; 6], PyInt 10)] [4; 6] 10).
  - lia.
  - lia.
  - vm_compute; reflexivity.
  - left.
  - vm_compute; reflexivity.
Defined.

(** ** Non-zero thresholds of enumerations below 2^53 outcomes *)

Section ExactThreshold.




End ExactThreshold.


